(** * A shallow embedding of the B+ tree of [bplustree.go]

    The Go program keeps its nodes on the garbage-collected heap and links
    them by pointers ([parent], [next], [prev], [children]).  The embedding
    keeps that shape: a heap is a list of node records, a pointer is an
    optional index into it, and every method is a computation over the heap
    that either returns or stops with the run-time fault Go would raise. *)

From stdpp Require Import base list option numbers.

Open Scope Z_scope.

(** ** Outcomes *)

(** The run-time faults of the Go program, plus the two artefacts of the
    embedding: [Dangling] (an address outside the heap, which a collected
    heap never produces) and [FuelExhausted] (a recursion bound reached). *)
Inductive fault : Type :=
  | NilDeref
  | IndexOutOfRange
  | UnexpectedSteal
  | Dangling
  | FuelExhausted.

Inductive res (A : Type) : Type :=
  | Ok (a : A)
  | Err (e : fault).
Arguments Ok {A} a.
Arguments Err {A} e.

Definition res_bind {A B : Type} (r : res A) (k : A -> res B) : res B :=
  match r with
  | Ok a => k a
  | Err e => Err e
  end.

(** ** [items]: the slice primitives *)

Module items.
Section items.
Context {T : Type}.

(** [s.insertAt(index, item)]: the append always succeeds, the final
    store at [index] faults when [index] exceeds the old length. *)
Definition insertAt (index : nat) (item : T) (s : list T) : res (list T) :=
  if decide (index ≤ length s)%nat
  then Ok (take index s ++ item :: drop index s)
  else Err IndexOutOfRange.

(** [s.removeAt(index)]: faults on the first read when out of range. *)
Definition removeAt (index : nat) (s : list T) : res (T * list T) :=
  match s !! index with
  | Some item => Ok (item, delete index s)
  | None => Err IndexOutOfRange
  end.

(** [s.pop()]: on the empty slice the index is [-1] and the read faults. *)
Definition pop (s : list T) : res (T * list T) :=
  match length s with
  | O => Err IndexOutOfRange
  | S index =>
      match s !! index with
      | Some out => Ok (out, take index s)
      | None => Err IndexOutOfRange
      end
  end.

(** [s.truncate(index)].  Every call site has already read or sliced the
    receiver at [index], so [index] never exceeds the length there. *)
Definition truncate (index : nat) (s : list T) : res (list T) :=
  if decide (index ≤ length s)%nat
  then Ok (take index s)
  else Err IndexOutOfRange.

(** [s[index]] with a Go [int] index. *)
Definition at_ (index : Z) (s : list T) : res T :=
  if decide (0 ≤ index) then
    match s !! Z.to_nat index with
    | Some x => Ok x
    | None => Err IndexOutOfRange
    end
  else Err IndexOutOfRange.

(** [s[index:]]. *)
Definition from (index : nat) (s : list T) : res (list T) :=
  if decide (index ≤ length s)%nat
  then Ok (drop index s)
  else Err IndexOutOfRange.

(** The loop of [sort.Search(n, f)] of the Go library: bisection between
    [i] and [j], at most [j - i] rounds. *)
Fixpoint search_loop (rounds : nat) (f : nat -> bool) (i j : nat) : nat :=
  match rounds with
  | O => i
  | S rounds' =>
      if (i <? j)%nat then
        let h := ((i + j) / 2)%nat in
        if f h then search_loop rounds' f i h
        else search_loop rounds' f (h + 1)%nat j
      else i
  end.

Definition sort_Search (n : nat) (f : nat -> bool) : nat :=
  search_loop n f 0%nat n.

(** [s.find(item, less)]. *)
Definition find (item : T) (less : T -> T -> bool) (s : list T)
  : nat * bool :=
  let i := sort_Search (length s)
             (fun i => match s !! i with
                       | Some x => less item x
                       | None => false
                       end) in
  match i with
  | O => (i, false)
  | S i' =>
      match s !! i' with
      | Some x => if less x item then (i, false) else (i', true)
      | None => (i, false)
      end
  end.
End items.
End items.

(** ** Machine numbers *)

(** Go's [int] on a 64-bit platform: the result of an addition or a
    subtraction is taken modulo [2^64] into [-2^63 .. 2^63 - 1]. *)
Definition wrap64 (z : Z) : Z := (z + 2 ^ 63) `mod` 2 ^ 64 - 2 ^ 63.

(** [float64(z)] for an integer [z]: the nearest number whose significand
    has 53 bits, ties going to the even significand.  With [e] the number
    of low bits that do not fit, [q] is the significand before rounding
    and [r] what is cut off.  The result is an integer again, and is [z]
    itself as long as [|z| < 2^53]. *)
Definition float64_of_int (z : Z) : Z :=
  let a := Z.abs z in
  let e := Z.log2 a - 52 in
  if decide (e ≤ 0) then z
  else
    let q := a `div` 2 ^ e in
    let r := a `mod` 2 ^ e in
    let half := 2 ^ (e - 1) in
    let q' := if decide (r < half) then q
              else if decide (half < r) then q + 1
              else if Z.even q then q else q + 1 in
    Z.sgn z * (q' * 2 ^ e).

Arguments wrap64 : simpl never.
Arguments float64_of_int : simpl never.

(** ** Nodes and the heap *)

(** A pointer [*node]: [None] is [nil]. *)
Definition ptr : Type := option nat.

Section bplustree.
Context {kT vT : Type}.
(** Go's zero value of the value type, returned by [Remove] when nothing
    is removed. *)
Variable zeroV : vT.

Definition LessFunc : Type := kT -> kT -> bool.

(** [type node].  The program only ever stores addresses of live nodes
    in [children], so its elements are addresses rather than pointers. *)
Record node : Type := mkNode {
  keys : list kT;
  children : list nat;
  parent : ptr;
  order : Z;
  next : ptr;
  prev : ptr;
  isLeaf : bool;
  values : list vT
}.

(** [&node{}]: every field at its zero value. *)
Definition zeroNode : node :=
  mkNode [] [] None 0 None None false [].

Definition set_keys (x : list kT) (n : node) : node :=
  mkNode x (children n) (parent n) (order n) (next n) (prev n)
         (isLeaf n) (values n).
Definition set_children (x : list nat) (n : node) : node :=
  mkNode (keys n) x (parent n) (order n) (next n) (prev n)
         (isLeaf n) (values n).
Definition set_parent (x : ptr) (n : node) : node :=
  mkNode (keys n) (children n) x (order n) (next n) (prev n)
         (isLeaf n) (values n).
Definition set_order (x : Z) (n : node) : node :=
  mkNode (keys n) (children n) (parent n) x (next n) (prev n)
         (isLeaf n) (values n).
Definition set_next (x : ptr) (n : node) : node :=
  mkNode (keys n) (children n) (parent n) (order n) x (prev n)
         (isLeaf n) (values n).
Definition set_prev (x : ptr) (n : node) : node :=
  mkNode (keys n) (children n) (parent n) (order n) (next n) x
         (isLeaf n) (values n).
Definition set_isLeaf (x : bool) (n : node) : node :=
  mkNode (keys n) (children n) (parent n) (order n) (next n) (prev n)
         x (values n).
Definition set_values (x : list vT) (n : node) : node :=
  mkNode (keys n) (children n) (parent n) (order n) (next n) (prev n)
         (isLeaf n) x.

(** The heap: the node at address [a] is the [a]-th element; allocation
    appends. *)
Definition heap : Type := list node.

(** A computation over the heap that returns or faults. *)
Definition M (A : Type) : Type := heap -> res (A * heap).

Definition ret {A : Type} (a : A) : M A := fun h => Ok (a, h).
Definition bind {A B : Type} (m : M A) (k : A -> M B) : M B :=
  fun h => match m h with
           | Ok (a, h') => k a h'
           | Err e => Err e
           end.
Definition throw {A : Type} (e : fault) : M A := fun _ => Err e.
Definition lift {A : Type} (r : res A) : M A :=
  fun h => match r with
           | Ok a => Ok (a, h)
           | Err e => Err e
           end.

Local Notation "'let*' x ':=' m 'in' k" := (bind m (fun x => k))
  (at level 10, x pattern, m at level 200, k at level 200).

(** Reading the field [f] through the pointer [p]. *)
Definition rd {A : Type} (p : ptr) (f : node -> A) : M A :=
  fun h => match p with
           | None => Err NilDeref
           | Some a => match h !! a with
                       | Some n => Ok (f n, h)
                       | None => Err Dangling
                       end
           end.

(** Assigning a field through the pointer [p]. *)
Definition wr (p : ptr) (f : node -> node) : M unit :=
  fun h => match p with
           | None => Err NilDeref
           | Some a => match h !! a with
                       | Some n => Ok (tt, <[a := f n]> h)
                       | None => Err Dangling
                       end
           end.

(** [&node{...}]. *)
Definition new (n : node) : M nat :=
  fun h => Ok (length h, h ++ [n]).

(** [len(s)] as a Go [int].  A slice holds far fewer than [2^63]
    elements, so the sums and successors of lengths and indices that the
    program computes stay in range and are written without [wrap64]. *)
Definition len {A : Type} (s : list A) : Z := Z.of_nat (length s).

(** ** Capacity *)

(** [n.maxKeys()]: the subtraction is one of Go's [int]. *)
Definition maxKeys (n : node) : Z :=
  if negb (isLeaf n) then wrap64 (order n - 1) else order n.

(** [int(math.Ceil(float64(n.order) / 2.0))].  The conversion to float64
    rounds the order to 53 bits; halving a float64 of that size is exact
    and leaves an integer or a half, so [math.Ceil] of it is the integer
    ceiling of half the rounded order, [(f + 1) `div` 2]; that number is
    at most [2^62] in size for every [int], so the conversion back is
    exact. *)
Definition degree (n : node) : Z := (float64_of_int (order n) + 1) `div` 2.

Definition minKeys (n : node) : Z :=
  if negb (isLeaf n) then degree n - 1 else degree n.

(** ** Insertion *)

(** [n.split(i)]. *)
Definition split (n : nat) (i : Z) : M (kT * nat) :=
  let* ks := rd (Some n) keys in
  let* key := lift (items.at_ i ks) in
  let i := Z.to_nat i in
  let* newNode := new zeroNode in
  let* leaf := rd (Some n) isLeaf in
  let ik := if leaf then i else (i + 1)%nat in
  let* ks := rd (Some n) keys in
  let* tl := lift (items.from ik ks) in
  let* nks := rd (Some newNode) keys in
  let* _ := wr (Some newNode) (set_keys (nks ++ tl)) in
  let* ks := rd (Some n) keys in
  let* ks' := lift (items.truncate i ks) in
  let* _ := wr (Some n) (set_keys ks') in
  let* cs := rd (Some n) children in
  let* _ :=
  (if decide (0 < len cs) then
     let* cs := rd (Some n) children in
     let* tl := lift (items.from (i + 1)%nat cs) in
     let* ncs := rd (Some newNode) children in
     let* _ := wr (Some newNode) (set_children (ncs ++ tl)) in
     let* cs := rd (Some n) children in
     let* cs' := lift (items.truncate (i + 1)%nat cs) in
     wr (Some n) (set_children cs')
   else ret tt) in
  let* o := rd (Some n) order in
  let* _ := wr (Some newNode) (set_order o) in
  let* p := rd (Some n) parent in
  let* _ := wr (Some newNode) (set_parent p) in
  let* l := rd (Some n) isLeaf in
  let* _ := wr (Some newNode) (set_isLeaf l) in
  let* vs := rd (Some n) values in
  let* _ :=
  (if decide (0 < len vs) then
     let* vs := rd (Some n) values in
     let* tl := lift (items.from i vs) in
     let* nvs := rd (Some newNode) values in
     let* _ := wr (Some newNode) (set_values (nvs ++ tl)) in
     let* vs := rd (Some n) values in
     let* vs' := lift (items.truncate i vs) in
     wr (Some n) (set_values vs')
   else ret tt) in
  let* nx := rd (Some n) next in
  let* _ :=
  (match nx with
   | Some _ => wr nx (set_prev (Some newNode))
   | None => ret tt
   end) in
  let* _ := wr (Some newNode) (set_prev (Some n)) in
  let* nx := rd (Some n) next in
  let* _ := wr (Some newNode) (set_next nx) in
  let* _ := wr (Some n) (set_next (Some newNode)) in
  ret (key, newNode).

(** [n.mayGrowUp(less)]; [fuel] bounds the walk up the parent links. *)
Fixpoint mayGrowUp (fuel : nat) (less : LessFunc) (n : nat)
  : M (ptr * bool) :=
  match fuel with
  | O => throw FuelExhausted
  | S fuel' =>
      let* ks := rd (Some n) keys in
      let* mx := rd (Some n) maxKeys in
      if decide (len ks ≤ mx) then ret (None, false)
      else
        let* mn := rd (Some n) minKeys in
        let* (promotedKey, newNode) := split n mn in
        let* parent_ := rd (Some n) parent in
        match parent_ with
        | None =>
            let* o := rd (Some n) order in
            let* root := new (set_order o zeroNode) in
            let* rks := rd (Some root) keys in
            let* _ := wr (Some root) (set_keys (rks ++ [promotedKey])) in
            let* rcs := rd (Some root) children in
            let* _ := wr (Some root) (set_children (rcs ++ [n; newNode])) in
            let* _ := wr (Some n) (set_parent (Some root)) in
            let* _ := wr (Some newNode) (set_parent (Some root)) in
            ret (Some root, true)
        | Some p =>
            let* pks := rd (Some p) keys in
            let '(index, _) := items.find promotedKey less pks in
            let* pks := rd (Some p) keys in
            let* pks' := lift (items.insertAt index promotedKey pks) in
            let* _ := wr (Some p) (set_keys pks') in
            let* pcs := rd (Some p) children in
            let* pcs' := lift (items.insertAt (index + 1)%nat newNode pcs) in
            let* _ := wr (Some p) (set_children pcs') in
            mayGrowUp fuel' less p
        end
  end.

(** [n.insertIntoLeaf(key, value, less)]. *)
Definition insertIntoLeaf (up : nat) (less : LessFunc) (n : nat)
    (key : kT) (value : vT) : M (ptr * bool) :=
  let* ks := rd (Some n) keys in
  let '(index, found) := items.find key less ks in
  if found then
    let* vs := rd (Some n) values in
    if decide (index < length vs)%nat then
      let* _ := wr (Some n) (set_values (<[index := value]> vs)) in
      ret (None, false)
    else throw IndexOutOfRange
  else
    let* ks := rd (Some n) keys in
    let* ks' := lift (items.insertAt index key ks) in
    let* _ := wr (Some n) (set_keys ks') in
    let* vs := rd (Some n) values in
    let* vs' := lift (items.insertAt index value vs) in
    let* _ := wr (Some n) (set_values vs') in
    mayGrowUp up less n.

(** [n.insert(key, value, less)]; [fuel] bounds the descent, [up] the
    walk back up. *)
Fixpoint insert (up fuel : nat) (less : LessFunc) (n : nat)
    (key : kT) (value : vT) : M (ptr * bool) :=
  match fuel with
  | O => throw FuelExhausted
  | S fuel' =>
      let* leaf := rd (Some n) isLeaf in
      if leaf then insertIntoLeaf up less n key value
      else
        let* ks := rd (Some n) keys in
        let '(i, _) := items.find key less ks in
        let* cs := rd (Some n) children in
        let* c := lift (items.at_ (Z.of_nat i) cs) in
        insert up fuel' less c key value
  end.

(** ** Removal *)

(** [n.mayStealFromNeighborLeaf(key, less)]. *)
Definition mayStealFromNeighborLeaf (less : LessFunc) (n : nat) (key : kT)
  : M bool :=
  let* leaf := rd (Some n) isLeaf in
  if negb leaf then throw UnexpectedSteal
  else
    let* prev_ := rd (Some n) prev in
    let* next_ := rd (Some n) next in
    let* fromPrev :=
      match prev_ with
      | None => ret false
      | Some _ =>
          let* pks := rd prev_ keys in
          let* pmn := rd prev_ minKeys in
          ret (bool_decide (pmn < len pks))
      end in
    if fromPrev then
      let* pks := rd prev_ keys in
      let* (stolenKey, pks') := lift (items.pop pks) in
      let* _ := wr prev_ (set_keys pks') in
      let* pvs := rd prev_ values in
      let* (stolenValue, pvs') := lift (items.pop pvs) in
      let* _ := wr prev_ (set_values pvs') in
      let* ks := rd (Some n) keys in
      let* ks' := lift (items.insertAt 0 stolenKey ks) in
      let* _ := wr (Some n) (set_keys ks') in
      let* vs := rd (Some n) values in
      let* vs' := lift (items.insertAt 0 stolenValue vs) in
      let* _ := wr (Some n) (set_values vs') in
      let* parent_ := rd (Some n) parent in
      let* aks := rd parent_ keys in
      let '(index, _) := items.find key less aks in
      let* aks := rd parent_ keys in
      let* (_, aks') := lift (items.removeAt index aks) in
      let* _ := wr parent_ (set_keys aks') in
      let* aks := rd parent_ keys in
      let* aks' := lift (items.insertAt index stolenKey aks) in
      let* _ := wr parent_ (set_keys aks') in
      ret true
    else
      let* fromNext :=
        match next_ with
        | None => ret false
        | Some _ =>
            let* nks := rd next_ keys in
            let* nmn := rd next_ minKeys in
            ret (bool_decide (nmn < len nks))
        end in
      if fromNext then
        let* nks := rd next_ keys in
        let* (stolenKey, nks') := lift (items.removeAt 0 nks) in
        let* _ := wr next_ (set_keys nks') in
        let* nvs := rd next_ values in
        let* (stolenValue, nvs') := lift (items.removeAt 0 nvs) in
        let* _ := wr next_ (set_values nvs') in
        let* ks := rd (Some n) keys in
        let* _ := wr (Some n) (set_keys (ks ++ [stolenKey])) in
        let* vs := rd (Some n) values in
        let* _ := wr (Some n) (set_values (vs ++ [stolenValue])) in
        let* nks := rd next_ keys in
        let* shiftUpKey := lift (items.at_ 0 nks) in
        let* parent_ := rd (Some n) parent in
        let* aks := rd parent_ keys in
        let '(index, _) := items.find key less aks in
        let* aks := rd parent_ keys in
        let* (_, aks') := lift (items.removeAt index aks) in
        let* _ := wr parent_ (set_keys aks') in
        let* aks := rd parent_ keys in
        let* aks' := lift (items.insertAt index shiftUpKey aks) in
        let* _ := wr parent_ (set_keys aks') in
        ret true
      else ret false.

(** [n.mayMergeWithNeighbor(key, less)]; [fuel] bounds the walk up the
    parent links. *)
Fixpoint mayMergeWithNeighbor (fuel : nat) (less : LessFunc) (n : nat)
    (key : kT) : M (ptr * bool) :=
  match fuel with
  | O => throw FuelExhausted
  | S fuel' =>
      let* prev_ := rd (Some n) prev in
      let* (first, second) :=
        match prev_ with
        | Some _ => ret (prev_, Some n)
        | None =>
            let* next_ := rd (Some n) next in
            ret (Some n, next_)
        end in
      let* fks := rd first keys in
      let* sks := rd second keys in
      let* fmx := rd first maxKeys in
      if decide (fmx < len fks + len sks) then ret (Some n, false)
      else
        let* fks := rd first keys in
        let* sks := rd second keys in
        let* _ := wr first (set_keys (fks ++ sks)) in
        let* fcs := rd first children in
        let* scs := rd second children in
        let* _ := wr first (set_children (fcs ++ scs)) in
        let* fvs := rd first values in
        let* svs := rd second values in
        let* _ := wr first (set_values (fvs ++ svs)) in
        let* snx := rd second next in
        let* _ := wr first (set_next snx) in
        let* snx := rd second next in
        let* _ :=
          match snx with
          | Some _ => wr snx (set_prev first)
          | None => ret tt
          end in
        let* parent_ := rd (Some n) parent in
        let* pks := rd parent_ keys in
        let '(i, _) := items.find key less pks in
        let* pks := rd parent_ keys in
        let i := if decide (Z.of_nat i = len pks)
                 then Z.of_nat i - 1 else Z.of_nat i in
        if decide (i < 0) then throw IndexOutOfRange
        else
          let* pks := rd parent_ keys in
          let* (_, pks') := lift (items.removeAt (Z.to_nat i) pks) in
          let* _ := wr parent_ (set_keys pks') in
          let* pcs := rd parent_ children in
          let* (_, pcs') := lift (items.removeAt (Z.to_nat (i + 1)) pcs) in
          let* _ := wr parent_ (set_children pcs') in
          let* pks := rd parent_ keys in
          if decide (len pks = 0) then
            let* _ := wr first (set_parent None) in
            ret (first, true)
          else
            match parent_ with
            | Some p =>
                let* (stopAt, _) := mayMergeWithNeighbor fuel' less p key in
                ret (stopAt, true)
            | None => throw NilDeref
            end
  end.

(** [n.removeFromLeaf(key, less)]. *)
Definition removeFromLeaf (up : nat) (less : LessFunc) (n : nat) (key : kT)
  : M (ptr * vT * bool) :=
  let* ks := rd (Some n) keys in
  let '(index, found) := items.find key less ks in
  if negb found then ret (None, zeroV, false)
  else
    let* ks := rd (Some n) keys in
    let* (_, ks') := lift (items.removeAt index ks) in
    let* _ := wr (Some n) (set_keys ks') in
    let* vs := rd (Some n) values in
    let* (out, vs') := lift (items.removeAt index vs) in
    let* _ := wr (Some n) (set_values vs') in
    let* parent_ := rd (Some n) parent in
    let* ks := rd (Some n) keys in
    let* mn := rd (Some n) minKeys in
    if bool_decide (parent_ = None) || bool_decide (mn ≤ len ks)
    then ret (None, out, true)
    else
      let* stolen := mayStealFromNeighborLeaf less n key in
      if stolen then ret (None, out, true)
      else
        let* (stopAt, _) := mayMergeWithNeighbor up less n key in
        ret (stopAt, out, true).

(** [n.remove(key, less)]. *)
Fixpoint remove (up fuel : nat) (less : LessFunc) (n : nat) (key : kT)
  : M (ptr * vT * bool) :=
  match fuel with
  | O => throw FuelExhausted
  | S fuel' =>
      let* leaf := rd (Some n) isLeaf in
      if leaf then removeFromLeaf up less n key
      else
        let* ks := rd (Some n) keys in
        let '(i, _) := items.find key less ks in
        let* cs := rd (Some n) children in
        let* c := lift (items.at_ (Z.of_nat i) cs) in
        remove up fuel' less c key
  end.

(** ** The tree handle *)

Record BPlusTree : Type := mkTree {
  tree_order : Z;
  tree_less : LessFunc;
  tree_root : ptr
}.

(** [New(order, less)]. *)
Definition New (order : Z) (less : LessFunc) : res BPlusTree :=
  Ok (mkTree order less None).

(** [t.Insert(key, value)]: the result and the handle after the call. *)
Definition Insert (fuel : nat) (t : BPlusTree) (key : kT) (value : vT)
  : M (bool * BPlusTree) :=
  match tree_root t with
  | None =>
      let* r := new (set_isLeaf true (set_order (tree_order t) zeroNode)) in
      let* ks := rd (Some r) keys in
      let* _ := wr (Some r) (set_keys (ks ++ [key])) in
      let* vs := rd (Some r) values in
      let* _ := wr (Some r) (set_values (vs ++ [value])) in
      ret (false, mkTree (tree_order t) (tree_less t) (Some r))
  | Some r =>
      let* (root, found) := insert fuel fuel (tree_less t) r key value in
      match root with
      | Some _ => ret (found, mkTree (tree_order t) (tree_less t) root)
      | None => ret (found, t)
      end
  end.

(** [t.Remove(key)]. *)
Definition Remove (fuel : nat) (t : BPlusTree) (key : kT)
  : M (vT * bool * BPlusTree) :=
  match tree_root t with
  | None => ret (zeroV, false, t)
  | Some r =>
      let* (stopNode, out, found) := remove fuel fuel (tree_less t) r key in
      match stopNode with
      | Some _ =>
          let* sp := rd stopNode parent in
          match sp with
          | None =>
              ret (out, found, mkTree (tree_order t) (tree_less t) stopNode)
          | Some _ => ret (out, found, t)
          end
      | None => ret (out, found, t)
      end
  end.

End bplustree.

Arguments mkNode {kT vT} _ _ _ _ _ _ _ _.
Arguments mkTree {kT} _ _ _.

(** ** Programs over a tree: sequences of public operations *)

Section programs.
Context {kT vT : Type}.
Variable zeroV : vT.

Inductive op : Type :=
  | OpInsert (key : kT) (value : vT)
  | OpRemove (key : kT).

(** The state of a client: the handle and the heap behind it. *)
Definition state : Type := (@BPlusTree kT * @heap kT vT)%type.

Definition exec (fuel : nat) (o : op) (s : state) : res state :=
  match o with
  | OpInsert key value =>
      match Insert fuel (fst s) key value (snd s) with
      | Ok ((_, t), h) => Ok (t, h)
      | Err e => Err e
      end
  | OpRemove key =>
      match Remove zeroV fuel (fst s) key (snd s) with
      | Ok ((_, t), h) => Ok (t, h)
      | Err e => Err e
      end
  end.

Fixpoint run (fuel : nat) (os : list op) (s : state) : res state :=
  match os with
  | [] => Ok s
  | o :: os' => res_bind (exec fuel o s) (run fuel os')
  end.

(** The empty tree of a given order: the result of [New] and no node. *)
Definition empty (order : Z) (less : kT -> kT -> bool) : state :=
  (mkTree order less None, []).

(** *** Observations *)

(** The leftmost leaf below [a]: first child repeatedly. *)
Fixpoint leftmost (fuel : nat) (h : @heap kT vT) (a : nat) : option nat :=
  match fuel with
  | O => None
  | S fuel' =>
      n ← h !! a;
      if isLeaf n then Some a
      else c ← children n !! 0%nat; leftmost fuel' h c
  end.

(** The rightmost leaf below [a]: last child repeatedly. *)
Fixpoint rightmost (fuel : nat) (h : @heap kT vT) (a : nat) : option nat :=
  match fuel with
  | O => None
  | S fuel' =>
      n ← h !! a;
      if isLeaf n then Some a
      else c ← children n !! (length (children n) - 1)%nat;
           rightmost fuel' h c
  end.

(** The nodes met walking a link ([next] or [prev]) from [p] to [nil]. *)
Fixpoint walk (link : @node kT vT -> ptr) (fuel : nat) (h : @heap kT vT)
    (p : ptr) : option (list nat) :=
  match p with
  | None => Some []
  | Some a =>
      match fuel with
      | O => None
      | S fuel' =>
          n ← h !! a;
          rest ← walk link fuel' h (link n);
          Some (a :: rest)
      end
  end.

(** The leaves of the subtree below [a], left to right, by the child
    arrays alone. *)
Fixpoint leaves (fuel : nat) (h : @heap kT vT) (a : nat)
  : option (list nat) :=
  match fuel with
  | O => None
  | S fuel' =>
      n ← h !! a;
      if isLeaf n then Some [a]
      else (fun l => concat l) <$> mapM (leaves fuel' h) (children n)
  end.

(** All nodes of the subtree below [a], the root of the subtree first. *)
Fixpoint nodes (fuel : nat) (h : @heap kT vT) (a : nat)
  : option (list nat) :=
  match fuel with
  | O => None
  | S fuel' =>
      n ← h !! a;
      if isLeaf n then Some [a]
      else (fun l => a :: concat l) <$> mapM (nodes fuel' h) (children n)
  end.

(** The keys held by a list of nodes, concatenated. *)
Definition keys_of (h : @heap kT vT) (l : list nat) : list kT :=
  concat (map (fun a => match h !! a with
                        | Some n => keys n
                        | None => []
                        end) l).

(** The pairs held by a list of leaves, concatenated. *)
Definition pairs_of (h : @heap kT vT) (l : list nat) : list (kT * vT) :=
  concat (map (fun a => match h !! a with
                        | Some n => zip (keys n) (values n)
                        | None => []
                        end) l).

(** [Iterate]: the pairs along the [next] chain from the leftmost leaf. *)
Definition Iterate (fuel : nat) (s : state) : option (list (kT * vT)) :=
  match tree_root (fst s) with
  | None => Some []
  | Some r =>
      l ← leftmost fuel (snd s) r;
      c ← walk next fuel (snd s) (Some l);
      Some (pairs_of (snd s) c)
  end.
End programs.

(** ** Invariants of the specification, as executable checks *)

Section checks.
Context {kT vT : Type}.

(** Consecutive elements are in strictly increasing order. *)
Fixpoint strictly_increasing (less : kT -> kT -> bool) (l : list kT)
  : bool :=
  match l with
  | [] => true
  | x :: l' =>
      match l' with
      | [] => true
      | y :: _ => less x y && strictly_increasing less l'
      end
  end.

(** The capacity bounds of one node other than the root. *)
Definition within_bounds (n : @node kT vT) : bool :=
  bool_decide (minKeys n ≤ len (keys n) ≤ maxKeys n)
  && (isLeaf n || bool_decide (len (children n) = len (keys n) + 1)).

(** The order invariant: every node below the root is within bounds. *)
Definition order_invariant (fuel : nat) (s : @state kT vT) : bool :=
  match tree_root (fst s) with
  | None => true
  | Some r =>
      match nodes fuel (snd s) r with
      | Some l =>
          forallb (fun a => match snd s !! a with
                            | Some n => within_bounds n
                            | None => false
                            end) (tail l)
      | None => false
      end
  end.

(** The keys along the [next] chain from the leftmost leaf. *)
Definition chain_keys (fuel : nat) (s : @state kT vT)
  : option (list kT) :=
  match tree_root (fst s) with
  | None => Some []
  | Some r =>
      l ← leftmost fuel (snd s) r;
      c ← walk next fuel (snd s) (Some l);
      Some (keys_of (snd s) c)
  end.

(** The leaf at which the descent of [insert] and [remove] for [key]
    arrives from the node [a]: at an internal node, the child at the
    index that [find] answers. *)
Fixpoint descend (fuel : nat) (less : kT -> kT -> bool) (h : @heap kT vT)
    (a : nat) (key : kT) : option nat :=
  match fuel with
  | O => None
  | S fuel' =>
      n ← h !! a;
      if isLeaf n then Some a
      else c ← children n !! fst (items.find key less (keys n));
           descend fuel' less h c key
  end.

(** The two nodes a merge at [a] concerns, the absorbing one first, as
    [mayMergeWithNeighbor] picks them from the links of [a] itself. *)
Definition chain_pair (a : nat) (n : @node kT vT) : option (nat * nat) :=
  match prev n with
  | Some p => Some (p, a)
  | None =>
      match next n with
      | Some q => Some (a, q)
      | None => None
      end
  end.

(** The heap after the [prev] link of the node behind [p], if any, is
    set to [first]. *)
Definition relink (first : nat) (p : ptr) (h : @heap kT vT) : @heap kT vT :=
  match p with
  | Some x =>
      match h !! x with
      | Some xd => <[x := set_prev (Some first) xd]> h
      | None => h
      end
  | None => h
  end.

(** The child that follows [a] in the child array of its parent. *)
Definition array_next (h : @heap kT vT) (a : nat) : option nat :=
  n ← h !! a;
  p ← parent n;
  pn ← h !! p;
  i ← list_find (fun c => c = a) (children pn);
  children pn !! S (fst i).
End checks.

(** ** Integer keys: the scenarios *)

Definition ins (l : list Z) : list (@op Z Z) :=
  map (fun k => OpInsert k (10 * k)) l.

(** The tree of order 4 made by inserting 1..10, in the middle of
    [Remove 6]: the key has left the leaf at address 3, which is now
    below its minimum. *)
Definition steal_heap : @heap Z Z :=
  [mkNode [1; 2] [] (Some 2%nat) 4 (Some 1%nat) None true [10; 20];
   mkNode [3; 4] [] (Some 2%nat) 4 (Some 3%nat) (Some 0%nat) true [30; 40];
   mkNode [3; 5; 7] [0%nat; 1%nat; 3%nat; 4%nat] None 4 None None false [];
   mkNode [5] [] (Some 2%nat) 4 (Some 4%nat) (Some 1%nat) true [50];
   mkNode [7; 8; 9; 10] [] (Some 2%nat) 4 None (Some 3%nat) true
     [70; 80; 90; 100]].

(** The tree of order 3 made by inserting 1..16, 0 and -1, in the middle
    of [Remove 2]: the leaf 15 has been merged into the leaf 0 and its
    separator has left the internal node 2, whose own merge check comes
    next. *)
Definition leaf3 (ks : list Z) (p nx pv : ptr) (vs : list Z) : @node Z Z :=
  mkNode ks [] p 3 nx pv true vs.
Definition inner3 (ks : list Z) (cs : list nat) (p nx pv : ptr)
  : @node Z Z :=
  mkNode ks cs p 3 nx pv false [].
Definition merge_heap : @heap Z Z :=
  [leaf3 [-1; 0; 1] (Some 2%nat) (Some 1%nat) None [-10; 0; 10];
   leaf3 [3; 4] (Some 2%nat) (Some 3%nat) (Some 0%nat) [30; 40];
   inner3 [1] [0%nat; 15%nat] (Some 6%nat) (Some 12%nat) None;
   leaf3 [5; 6] (Some 2%nat) (Some 4%nat) (Some 1%nat) [50; 60];
   leaf3 [7; 8] (Some 2%nat) (Some 8%nat) (Some 3%nat) [70; 80];
   inner3 [7] [3%nat; 4%nat] (Some 6%nat) None (Some 9%nat);
   inner3 [5] [2%nat; 5%nat] (Some 14%nat) (Some 13%nat) None;
   leaf3 [9; 10] (Some 2%nat) None (Some 10%nat) [90; 100];
   leaf3 [11; 12] (Some 2%nat) (Some 11%nat) (Some 4%nat) [110; 120];
   inner3 [11] [7%nat; 8%nat] (Some 6%nat) (Some 5%nat) (Some 12%nat);
   leaf3 [13; 14] (Some 2%nat) (Some 7%nat) (Some 11%nat) [130; 140];
   leaf3 [15; 16] (Some 2%nat) (Some 10%nat) (Some 8%nat) [150; 160];
   inner3 [15] [10%nat; 11%nat] (Some 6%nat) (Some 9%nat) (Some 2%nat);
   inner3 [13] [9%nat; 12%nat] (Some 14%nat) None (Some 6%nat);
   inner3 [9] [6%nat; 13%nat] None None None;
   leaf3 [1] (Some 2%nat) (Some 1%nat) (Some 0%nat) [10]].

(** The tree of order 3 made by inserting 1..4, in the middle of
    [Remove 4]: the key has left the leaf at address 1, which is now
    below its minimum, and the previous leaf has no key to spare. *)
Definition small_merge_heap : @heap Z Z :=
  [leaf3 [1; 2] (Some 2%nat) (Some 1%nat) None [10; 20];
   leaf3 [3] (Some 2%nat) None (Some 0%nat) [30];
   inner3 [3] [0%nat; 1%nat] None None None].

(** The tree of order 4 made by inserting 1..5: the root, at address 2,
    holds the separator 3 over the leaves [1, 2] and [3, 4, 5]. *)
Definition two_level_heap : @heap Z Z :=
  [mkNode [1; 2] [] (Some 2%nat) 4 (Some 1%nat) None true [10; 20];
   mkNode [3; 4; 5] [] (Some 2%nat) 4 None (Some 0%nat) true [30; 40; 50];
   mkNode [3] [0%nat; 1%nat] None 4 None None false []].
Definition two_level_tree : @BPlusTree Z := mkTree 4 Z.ltb (Some 2%nat).

(** The tree of order 4 whose root leaf is full, and the tree of order 4
    with root keys [4, 6] in the middle of [Remove 5]: the key has left
    the leaf at address 1, whose previous leaf has a pair to spare. *)
Definition full_root_heap : @heap Z Z :=
  [mkNode [1; 2; 3; 4] [] None 4 None None true [10; 20; 30; 40]].
Definition full_root_tree : @BPlusTree Z := mkTree 4 Z.ltb (Some 0%nat).
Definition steal_prev_heap : @heap Z Z :=
  [mkNode [1; 2; 3] [] (Some 2%nat) 4 (Some 1%nat) None true [10; 20; 30];
   mkNode [4] [] (Some 2%nat) 4 (Some 3%nat) (Some 0%nat) true [40];
   mkNode [4; 6] [0%nat; 1%nat; 3%nat] None 4 None None false [];
   mkNode [6; 7; 8] [] (Some 2%nat) 4 None (Some 1%nat) true [60; 70; 80]].

(** The tree of order 4 made by inserting 1..10, in the middle of
    [Insert 11]: the last leaf has been split and the root, at address
    2, holds four keys, one more than it may. *)
Definition overfull_root_heap : @heap Z Z :=
  [mkNode [1; 2] [] (Some 2%nat) 4 (Some 1%nat) None true [10; 20];
   mkNode [3; 4] [] (Some 2%nat) 4 (Some 3%nat) (Some 0%nat) true [30; 40];
   mkNode [3; 5; 7; 9] [0%nat; 1%nat; 3%nat; 4%nat; 5%nat] None 4 None
     None false [];
   mkNode [5; 6] [] (Some 2%nat) 4 (Some 4%nat) (Some 1%nat) true [50; 60];
   mkNode [7; 8] [] (Some 2%nat) 4 (Some 5%nat) (Some 3%nat) true [70; 80];
   mkNode [9; 10; 11] [] (Some 2%nat) 4 None (Some 4%nat) true
     [90; 100; 110]].

(** ** Ordered key sequences *)

(** A sequence is increasing for [less] when every earlier element is
    less than every later one. *)
Definition increasing {kT : Type} (less : kT -> kT -> bool) (s : list kT)
  : Prop :=
  ∀ a b x y, (a < b)%nat → s !! a = Some x → s !! b = Some y →
             less x y = true.

(** * Properties *)

Example find_1234_2 : items.find 2 Z.ltb [1; 2; 3; 4] = (1%nat, true).
Proof. reflexivity. Qed.
Example find_124_3 : items.find 3 Z.ltb [1; 2; 4] = (2%nat, false).
Proof. reflexivity. Qed.
Example find_2_2 : items.find 2 Z.ltb [2] = (0%nat, true).
Proof. reflexivity. Qed.
Example find_2_3 : items.find 3 Z.ltb [2] = (1%nat, false).
Proof. reflexivity. Qed.
Example find_2_1 : items.find 1 Z.ltb [2] = (0%nat, false).
Proof. reflexivity. Qed.

(** ** Machine numbers *)

Lemma wrap64_small (z : Z) : - 2 ^ 63 ≤ z < 2 ^ 63 → wrap64 z = z.
Proof.
  intros Hz. unfold wrap64. rewrite Z.mod_small by lia. lia.
Qed.

Example wrap64_wraps :
  wrap64 (- 2 ^ 63 - 1) = 2 ^ 63 - 1 ∧ wrap64 (2 ^ 63) = - 2 ^ 63.
Proof. split; reflexivity. Qed.

(** Up to [2^53] in size an integer is its own float64. *)
Lemma float64_of_int_small (z : Z) :
  Z.abs z < 2 ^ 53 → float64_of_int z = z.
Proof.
  intros Hz. unfold float64_of_int. case_decide as He; [done|].
  destruct (decide (Z.abs z = 0)) as [H0|H0].
  - rewrite H0 in He. cbn in He. lia.
  - assert (Z.log2 (Z.abs z) < 53); [|lia].
    apply Z.log2_lt_pow2; lia.
Qed.


(** The float64 of an [int] is at most [2^63] in size. *)
Lemma float64_of_int_range (z : Z) :
  Z.abs z ≤ 2 ^ 63 → Z.abs (float64_of_int z) ≤ 2 ^ 63.
Proof.
  intros Hz. unfold float64_of_int. case_decide as He; [done|].
  assert (Ha : 0 < Z.abs z).
  { destruct (decide (Z.abs z = 0)) as [H0|]; [|lia].
    rewrite H0 in He. cbn in He. lia. }
  pose proof (Z.log2_spec (Z.abs z) Ha) as [Hlo Hhi].
  assert (HL : Z.log2 (Z.abs z) ≤ 63).
  { destruct (decide (Z.log2 (Z.abs z) ≤ 63)) as [|Hn]; [done|].
    assert (2 ^ 64 ≤ 2 ^ Z.log2 (Z.abs z))
      by (apply Z.pow_le_mono_r; lia). lia. }
  rewrite Z.abs_mul.
  replace (Z.abs (Z.sgn z)) with 1 by lia.
  rewrite Z.mul_1_l.
  set (a := Z.abs z) in *.
  assert (He' : ∃ e, 1 ≤ e ≤ 11 ∧ Z.log2 a = e + 52)
    by (exists (Z.log2 a - 52); lia).
  destruct He' as (e & Hr & HLe). rewrite HLe in *.
  replace (e + 52 - 52) with e by lia.
  replace (e + 52 + 1) with (e + 53) in Hhi by lia.
  assert (e = 1 ∨ e = 2 ∨ e = 3 ∨ e = 4 ∨ e = 5 ∨ e = 6 ∨ e = 7 ∨ e = 8
          ∨ e = 9 ∨ e = 10 ∨ e = 11) as Hcase by lia.
  assert (Hpos : 0 < 2 ^ e) by (apply Z.pow_pos_nonneg; lia).
  pose proof (Z.div_mod a (2 ^ e) ltac:(lia)) as Hdm.
  pose proof (Z.mod_pos_bound a (2 ^ e) Hpos) as Hmb.
  clearbody a. clear He HL Hr HLe Hpos.
  repeat (destruct Hcase as [->|Hcase]); [..|subst e];
    repeat match goal with
           | |- context [2 ^ (?x - 1)] =>
               let v := eval vm_compute in (2 ^ (x - 1)) in
               change (2 ^ (x - 1)) with v
           | |- context [2 ^ ?x] =>
               let v := eval vm_compute in (2 ^ x) in
               change (2 ^ x) with v
           | H : context [2 ^ ?x] |- _ =>
               let v := eval vm_compute in (2 ^ x) in
               change (2 ^ x) with v in H
           end.
  all: repeat case_decide; try destruct (Z.even _); lia.
Qed.

(** Beyond [2^53] the conversion rounds: to the even neighbour at a tie,
    and [2^63 - 1], the largest [int], becomes [2^63]. *)
Example float64_of_int_rounds :
  float64_of_int (2 ^ 53 + 1) = 2 ^ 53 ∧
  float64_of_int (2 ^ 53 + 3) = 2 ^ 53 + 4 ∧
  float64_of_int (2 ^ 55 + 5) = 2 ^ 55 + 8 ∧
  float64_of_int (- (2 ^ 53 + 1)) = - 2 ^ 53 ∧
  float64_of_int (2 ^ 63 - 1) = 2 ^ 63.
Proof. repeat split; vm_compute; reflexivity. Qed.

(** For an order below [2^53], [degree] is the integer ceiling of half
    the order. *)
Lemma degree_small {kT vT : Type} (n : @node kT vT) :
  0 ≤ order n < 2 ^ 53 → degree n = (order n + 1) `div` 2.
Proof.
  intros Ho. unfold degree. rewrite float64_of_int_small; [done|lia].
Qed.


(** For every order that is an [int], [degree] is at most [2^62] in size:
    its conversion back to [int] is exact and the [degree - 1] of
    [minKeys] does not wrap. *)
Lemma degree_range {kT vT : Type} (n : @node kT vT) :
  - 2 ^ 63 ≤ order n < 2 ^ 63 → - 2 ^ 62 ≤ degree n ≤ 2 ^ 62.
Proof.
  intros Ho. unfold degree.
  pose proof (float64_of_int_range (order n) ltac:(lia)) as Hf.
  pose proof (Z.div_mod (float64_of_int (order n) + 1) 2 ltac:(lia)).
  pose proof (Z.mod_pos_bound (float64_of_int (order n) + 1) 2 ltac:(lia)).
  lia.
Qed.

(** Above that the two part: at the order [2^53 + 1] the code's degree is
    [2^52], one less than the ceiling of half the order; and the
    [maxKeys] of an internal node of the least order wraps around. *)
Example degree_beyond_2_53 :
  degree (@mkNode Z Z [] [] None (2 ^ 53 + 1) None None true []) = 2 ^ 52 ∧
  (2 ^ 53 + 1 + 1) `div` 2 = 2 ^ 52 + 1 ∧
  maxKeys (@mkNode Z Z [] [] None (- 2 ^ 63) None None false [])
  = 2 ^ 63 - 1.
Proof. repeat split; vm_compute; reflexivity. Qed.

(** ** Scenarios on trees built by the public operations *)

(** C9, as stated, fails at order 2: [New] returns a handle, no error, and
    the handle is usable: an insertion stores its pair. *)
Lemma New_order_2_is_accepted :
  New 2 Z.ltb = Ok (mkTree 2 Z.ltb None) ∧
  ∃ s, run 0 4 [OpInsert 5 50] (mkTree 2 Z.ltb None, []) = Ok s ∧
       Iterate 4 s = Some [(5, 50)].
Proof. split; [reflexivity|]. eexists; split; reflexivity. Qed.

(** C9, amended: [New] validates nothing; for every order, also below 3,
    it returns the empty tree that carries the order and the comparison
    it was given, and never a fault. *)
Theorem New_accepts_every_order (kT : Type) (order : Z)
    (less : kT -> kT -> bool) :
  ∃ t, New order less = Ok t ∧
       tree_order t = order ∧ tree_less t = less ∧ tree_root t = None.
Proof. eexists; repeat split. Qed.

(** C3 (the code departs from it): in the two-level tree built by
    inserting 1..5 at order 4 the root holds the separator 3 between the
    leaves [1,2] and [3,4,5]; [find] answers index 0 for the key 3, and
    [Insert 3] descends into [children[0]], the left leaf, which then
    holds a second copy of 3, while [children[1]] is left as it was. *)
Theorem tie_descends_left_of_separator :
  items.find 3 Z.ltb [3] = (0%nat, true) ∧
  ∃ t h t' h',
    run 0 8 (ins [1; 2; 3; 4; 5]) (empty 4 Z.ltb) = Ok (t, h) ∧
    tree_root t = Some 2%nat ∧
    (keys <$> h !! 2%nat) = Some [3] ∧
    (children <$> h !! 2%nat) = Some [0%nat; 1%nat] ∧
    (keys <$> h !! 0%nat) = Some [1; 2] ∧
    (keys <$> h !! 1%nat) = Some [3; 4; 5] ∧
    Insert 8 t 3 99 h = Ok ((false, t'), h') ∧
    (keys <$> h' !! 0%nat) = Some [1; 2; 3] ∧
    h' !! 1%nat = h !! 1%nat.
Proof.
  split; [reflexivity|].
  do 4 eexists. split; [vm_compute; reflexivity|].
  repeat split; vm_compute; reflexivity.
Qed.

(** C2 (the code departs from it): after inserting 1..5 at order 4 the
    key 3 is stored, with value 30, in the right leaf; [Remove 3] answers
    not-found and changes nothing. *)
Theorem Remove_misses_a_stored_key :
  ∃ t h,
    run 0 8 (ins [1; 2; 3; 4; 5]) (empty 4 Z.ltb) = Ok (t, h) ∧
    Iterate 8 (t, h) = Some [(1, 10); (2, 20); (3, 30); (4, 40); (5, 50)] ∧
    Remove 0 8 t 3 h = Ok ((0, false, t), h).
Proof.
  do 2 eexists. split; [vm_compute; reflexivity|].
  split; vm_compute; reflexivity.
Qed.

(** The same contract fails a second way: after inserting 1..7 at order 4
    the stored key 1 cannot be removed at all, the call stops on a nil
    dereference in the merge check of the root. *)
Lemma Remove_faults_on_a_stored_key :
  ∃ s,
    run 0 8 (ins [1; 2; 3; 4; 5; 6; 7]) (empty 4 Z.ltb) = Ok s ∧
    Iterate 8 s = Some [(1, 10); (2, 20); (3, 30); (4, 40); (5, 50);
                        (6, 60); (7, 70)] ∧
    Remove 0 8 (fst s) 1 (snd s) = Err NilDeref.
Proof.
  eexists. split; [vm_compute; reflexivity|].
  split; vm_compute; reflexivity.
Qed.


(** The flag is not "the key was absent" either: the fifth insertion of
    a fresh key answers [true], the four before it [false]; it is the
    insertion that splits the root. *)
Lemma Insert_of_a_fresh_key_answers_either :
  ∃ t h t' h' t'' h'',
    run 0 8 (ins [1; 2; 3]) (empty 4 Z.ltb) = Ok (t, h) ∧
    Insert 8 t 4 40 h = Ok ((false, t'), h') ∧
    Insert 8 t' 5 50 h' = Ok ((true, t''), h'') ∧
    tree_root t' = Some 0%nat ∧ tree_root t'' = Some 2%nat.
Proof.
  do 6 eexists. split; [vm_compute; reflexivity|].
  split; [vm_compute; reflexivity|].
  split; [vm_compute; reflexivity|].
  split; reflexivity.
Qed.

(** C4 (the code departs from it): at order 3, inserting 1..8, 0 and -1
    gives a tree that meets the order invariant; [Remove 2] then leaves
    the root with the children 0, 7, 3, 4, of which the leaf 7 holds the
    single key 1, below the minimum 2 of a leaf. *)
Theorem order_invariant_is_broken :
  ∃ s s' n,
    run 0 8 (ins [1; 2; 3; 4; 5; 6; 7; 8; 0; -1]) (empty 3 Z.ltb) = Ok s ∧
    order_invariant 8 s = true ∧
    exec 0 8 (OpRemove 2) s = Ok s' ∧
    tree_root (fst s') = Some 2%nat ∧
    (children <$> snd s' !! 2%nat) = Some [0%nat; 7%nat; 3%nat; 4%nat] ∧
    snd s' !! 7%nat = Some n ∧
    isLeaf n = true ∧ keys n = [1] ∧ minKeys n = 2 ∧
    order_invariant 8 s' = false.
Proof.
  do 3 eexists. split; [vm_compute; reflexivity|].
  split; [vm_compute; reflexivity|].
  split; [vm_compute; reflexivity|].
  repeat split; vm_compute; reflexivity.
Qed.

(** C5 (the code departs from it): at order 4, inserting 1..5 and then 3
    once more leaves the key 3 twice on the leaf chain, which is then not
    strictly increasing. *)
Theorem leaf_chain_is_not_strictly_increasing :
  ∃ s,
    run 0 8 (ins [1; 2; 3; 4; 5] ++ [OpInsert 3 99]) (empty 4 Z.ltb)
      = Ok s ∧
    chain_keys 8 s = Some [1; 2; 3; 3; 4; 5] ∧
    strictly_increasing Z.ltb [1; 2; 3; 3; 4; 5] = false.
Proof.
  eexists. split; [vm_compute; reflexivity|].
  split; vm_compute; reflexivity.
Qed.

(** The chain also parts from the tree: in the state that breaks C4 the
    leaves below the root are 0, 7, 3, 4 by the child arrays, while the
    [next] walk from the leftmost leaf meets 0, 1, 3, 4: it visits the
    leaf 1, which the tree no longer holds, and never the leaf 7; the
    [prev] walk from the rightmost leaf is the reverse of that walk. *)
Lemma leaf_chain_differs_from_the_leaves :
  ∃ s,
    run 0 8 (ins [1; 2; 3; 4; 5; 6; 7; 8; 0; -1] ++ [OpRemove 2])
      (empty 3 Z.ltb) = Ok s ∧
    leaves 8 (snd s) 2%nat = Some [0%nat; 7%nat; 3%nat; 4%nat] ∧
    leftmost 8 (snd s) 2%nat = Some 0%nat ∧
    rightmost 8 (snd s) 2%nat = Some 4%nat ∧
    walk next 8 (snd s) (Some 0%nat) = Some [0%nat; 1%nat; 3%nat; 4%nat] ∧
    walk prev 8 (snd s) (Some 4%nat) = Some [4%nat; 3%nat; 1%nat; 0%nat].
Proof.
  eexists. split; [vm_compute; reflexivity|].
  repeat split; vm_compute; reflexivity.
Qed.

(** C7 (the code departs from it): at order 4 the root has the keys
    [4, 6] over the leaves [1,2,3], [4,5], [6,7,8].  [Remove 5] makes
    the middle leaf take 3 from the previous leaf; the separator that
    routes to the middle leaf, [keys[0] = 4], is left alone and the next
    one, [keys[1] = 6], is overwritten with 3. *)
Theorem steal_from_previous_overwrites_the_next_separator :
  ∃ t h t' h',
    run 0 8 (ins [2; 3; 4; 5; 6; 7; 8; 1]) (empty 4 Z.ltb) = Ok (t, h) ∧
    tree_root t = Some 2%nat ∧
    (keys <$> h !! 2%nat) = Some [4; 6] ∧
    (children <$> h !! 2%nat) = Some [0%nat; 1%nat; 3%nat] ∧
    (keys <$> h !! 0%nat) = Some [1; 2; 3] ∧
    (keys <$> h !! 1%nat) = Some [4; 5] ∧
    Remove 0 8 t 5 h = Ok ((50, true, t'), h') ∧
    (keys <$> h' !! 0%nat) = Some [1; 2] ∧
    (keys <$> h' !! 1%nat) = Some [3; 4] ∧
    (keys <$> h' !! 2%nat) = Some [4; 3].
Proof.
  do 4 eexists. split; [vm_compute; reflexivity|].
  repeat split; vm_compute; reflexivity.
Qed.

(** When the stealing leaf is the last child, the same step reads the
    parent's keys one past the end and the removal faults. *)
Lemma steal_from_previous_faults_in_the_last_child :
  ∃ s,
    run 0 8 (ins [2; 3; 4; 5; 6; 1] ++ [OpRemove 5]) (empty 4 Z.ltb)
      = Ok s ∧
    Remove 0 8 (fst s) 6 (snd s) = Err IndexOutOfRange.
Proof.
  eexists. split; [vm_compute; reflexivity|]. vm_compute. reflexivity.
Qed.

(** C6 (the code departs from it): at order 3, inserting 1..16, 0 and -1
    gives a tree that meets the order invariant: the root 14 over the
    internal nodes 6 and 13, node 6 over the internal nodes 2 and 5, node
    2 over the leaves 0, 15 and 1.  [Remove 2] empties the leaf 15 into
    the leaf 0 and then
    - takes from node 2 the key 3 and the child 1, the pair to the right
      of the merged leaf, so that node 2 keeps the emptied leaf 15 and
      loses the leaf 1, which holds 3 and 4;
    - merges the internal node 2 with node 12, the node behind its [next]
      link, and not with node 5, the next child of their parent 6: node 2
      then has the two keys 1 and 15 over four children;
    - finds node 6 without a key, cuts node 2 loose and makes it the root
      of the tree, although node 6 was not the root.
    Below the new root the tree holds eight keys, 1 among them twice, of
    the seventeen that are stored. *)
Theorem merge_collapse_makes_a_subtree_the_root :
  ∃ s s',
    run 0 8 (ins [1; 2; 3; 4; 5; 6; 7; 8; 9; 10; 11; 12; 13; 14; 15; 16;
                  0; -1]) (empty 3 Z.ltb) = Ok s ∧
    order_invariant 8 s = true ∧
    tree_root (fst s) = Some 14%nat ∧
    (parent <$> snd s !! 6%nat) = Some (Some 14%nat) ∧
    (children <$> snd s !! 6%nat) = Some [2%nat; 5%nat] ∧
    (isLeaf <$> snd s !! 2%nat) = Some false ∧
    (parent <$> snd s !! 2%nat) = Some (Some 6%nat) ∧
    (keys <$> snd s !! 2%nat) = Some [1; 3] ∧
    (children <$> snd s !! 2%nat) = Some [0%nat; 15%nat; 1%nat] ∧
    (keys <$> snd s !! 15%nat) = Some [1; 2] ∧
    (keys <$> snd s !! 1%nat) = Some [3; 4] ∧
    (prev <$> snd s !! 2%nat) = Some None ∧
    (next <$> snd s !! 2%nat) = Some (Some 12%nat) ∧
    array_next (snd s) 2%nat = Some 5%nat ∧
    (keys <$> snd s !! 12%nat) = Some [15] ∧
    (children <$> snd s !! 12%nat) = Some [10%nat; 11%nat] ∧
    (keys <$> snd s !! 5%nat) = Some [7] ∧
    (keys_of (snd s) <$> leaves 8 (snd s) 14%nat)
      = Some [-1; 0; 1; 2; 3; 4; 5; 6; 7; 8; 9; 10; 11; 12; 13; 14; 15;
              16] ∧
    exec 0 8 (OpRemove 2) s = Ok s' ∧
    tree_root (fst s') = Some 2%nat ∧
    (parent <$> snd s' !! 2%nat) = Some None ∧
    (keys <$> snd s' !! 2%nat) = Some [1; 15] ∧
    (children <$> snd s' !! 2%nat)
      = Some [0%nat; 15%nat; 10%nat; 11%nat] ∧
    (keys <$> snd s' !! 15%nat) = Some [1] ∧
    (keys <$> snd s' !! 6%nat) = Some [] ∧
    (keys_of (snd s') <$> leaves 8 (snd s') 2%nat)
      = Some [-1; 0; 1; 1; 13; 14; 15; 16].
Proof.
  do 2 eexists. split; [vm_compute; reflexivity|].
  do 18 (split; [vm_compute; reflexivity|]).
  repeat split; vm_compute; reflexivity.
Qed.

(** ** The slice primitives on lists *)

Section items_facts.
Context {T : Type}.
Implicit Types (s : list T).

Lemma insertAt_le (index : nat) (item : T) s :
  (index ≤ length s)%nat →
  items.insertAt index item s = Ok (take index s ++ item :: drop index s).
Proof. intros H. unfold items.insertAt. by rewrite decide_True. Qed.

Lemma insertAt_0 (item : T) s : items.insertAt 0 item s = Ok (item :: s).
Proof. rewrite insertAt_le by lia. reflexivity. Qed.

Lemma removeAt_lookup (index : nat) (item : T) s :
  s !! index = Some item →
  items.removeAt index s = Ok (item, delete index s).
Proof. intros H. unfold items.removeAt. by rewrite H. Qed.

Lemma at_lookup (index : nat) (item : T) s :
  s !! index = Some item → items.at_ (Z.of_nat index) s = Ok item.
Proof.
  intros H. unfold items.at_. rewrite decide_True by lia.
  by rewrite Nat2Z.id, H.
Qed.
End items_facts.

(** ** Stepping a computation over a symbolic heap *)

Section stepping.
Context {kT vT : Type}.
Implicit Types (h : @heap kT vT) (n : @node kT vT).

Lemma lookup_upd_eq h a n x : h !! a = Some n → <[a := x]> h !! a = Some x.
Proof. intros H. apply list_lookup_insert_eq. by eapply lookup_lt_Some. Qed.

Lemma lookup_upd_ne h a b x : a ≠ b → <[a := x]> h !! b = h !! b.
Proof. apply list_lookup_insert_ne. Qed.

Lemma upd_upd_eq h a x y : <[a := x]> (<[a := y]> h) = <[a := x]> h.
Proof. apply list_insert_insert_eq. Qed.

Lemma upd_upd_ne h a b x y :
  a ≠ b → <[a := x]> (<[b := y]> h) = <[b := y]> (<[a := x]> h).
Proof. apply list_insert_insert_ne. Qed.

Lemma upd_id h a n : h !! a = Some n → <[a := n]> h = h.
Proof. apply list_insert_id. Qed.

Lemma bind_rd {A B} h a n (f : node -> A) (k : A -> M B) :
  h !! a = Some n → bind (rd (Some a) f) k h = k (f n) h.
Proof. intros H. unfold bind, rd. by rewrite H. Qed.

Lemma bind_wr {B} h a n (f : node -> node) (k : unit -> M B) :
  h !! a = Some n → bind (wr (Some a) f) k h = k tt (<[a := f n]> h).
Proof. intros H. unfold bind, wr. by rewrite H. Qed.

Lemma bind_rd_nil {A B} h (f : @node kT vT -> A) (k : A -> M B) :
  bind (rd None f) k h = Err NilDeref.
Proof. reflexivity. Qed.

Lemma bind_ret {A B} h (a : A) (k : A -> @M kT vT B) :
  bind (ret a) k h = k a h.
Proof. reflexivity. Qed.

Lemma bind_lift_Ok {A B} h (a : A) (k : A -> @M kT vT B) :
  bind (lift (Ok a)) k h = k a h.
Proof. reflexivity. Qed.

Lemma bind_Ok {A B} h h' (a : A) (m : @M kT vT A) (k : A -> M B) :
  m h = Ok (a, h') → bind m k h = k a h'.
Proof. intros H. unfold bind. by rewrite H. Qed.

Lemma bind_bind {A B C} h (m : @M kT vT A) (f : A -> M B) (g : B -> M C) :
  bind (bind m f) g h = bind m (fun a => bind (f a) g) h.
Proof. unfold bind. destruct (m h) as [[a h']|e]; reflexivity. Qed.
End stepping.

(** Looking a node up in a heap written as a stack of updates. *)
Ltac solve_lookup :=
  lazymatch goal with
  | |- <[?a := _]> _ !! ?a = Some _ =>
      eapply lookup_upd_eq; solve_lookup
  | |- <[?a := _]> _ !! ?b = Some _ =>
      rewrite (lookup_upd_ne _ a b) by congruence; solve_lookup
  | |- _ => eassumption
  end.

(** One statement of the program. *)
Ltac step :=
  lazymatch goal with
  | |- context [bind (bind ?m ?f) ?g ?h] => rewrite (bind_bind h m f g)
  | |- context [bind (rd (Some ?a) ?f) ?k ?h] =>
      erewrite (bind_rd h a _ f k) by solve_lookup
  | |- context [bind (wr (Some ?a) ?f) ?k ?h] =>
      erewrite (bind_wr h a _ f k) by solve_lookup
  | |- context [bind (ret ?a) ?k ?h] => rewrite (bind_ret h a k)
  | |- context [bind (lift (Ok ?a)) ?k ?h] => rewrite (bind_lift_Ok h a k)
  end; cbn beta iota.

#[local] Arguments bind : simpl never.
#[local] Arguments rd : simpl never.
#[local] Arguments wr : simpl never.
#[local] Arguments ret : simpl never.
#[local] Arguments lift : simpl never.
#[local] Arguments new : simpl never.

(** ** The solitary root leaf (C10) *)

Section solitary.
Context {kT vT : Type}.
Variable zeroV : vT.
Implicit Types (h : @heap kT vT) (nd : @node kT vT) (t : @BPlusTree kT).

Lemma find_nil (less : kT -> kT -> bool) (key : kT) :
  items.find key less [] = (0%nat, false).
Proof. reflexivity. Qed.

Lemma find_singleton_eq (less : kT -> kT -> bool) (key : kT) :
  less key key = false → items.find key less [key] = (0%nat, true).
Proof.
  intros H. unfold items.find, items.sort_Search. cbn. rewrite H. cbn.
  by rewrite H.
Qed.

Lemma remove_solitary less h (r : nat) nd (k : kT) (v : vT)
    (up fuel : nat) :
  h !! r = Some nd →
  isLeaf nd = true → parent nd = None →
  keys nd = [k] → values nd = [v] →
  less k k = false →
  remove zeroV up (S fuel) less r k h
  = Ok ((None, v, true), <[r := set_values [] (set_keys [] nd)]> h).
Proof.
  intros Hr Hleaf Hpar Hk Hv Hirr.
  cbn [remove]. step. rewrite Hleaf. unfold removeFromLeaf.
  step. rewrite Hk, find_singleton_eq by done. cbn [negb].
  step. rewrite Hk. cbn. step. step. step. cbn. rewrite Hv. cbn.
  step. step. step. cbn. rewrite Hpar. step. step. cbn.
  unfold ret. by rewrite upd_upd_eq.
Qed.

Lemma remove_keyless less h (r : nat) nd (k : kT) (up fuel : nat) :
  h !! r = Some nd →
  isLeaf nd = true → keys nd = [] →
  remove zeroV up (S fuel) less r k h = Ok ((None, zeroV, false), h).
Proof.
  intros Hr Hleaf Hk.
  cbn [remove]. step. rewrite Hleaf. unfold removeFromLeaf.
  step. rewrite Hk, find_nil. reflexivity.
Qed.

Lemma insert_keyless less h (r : nat) nd (k : kT) (v : vT)
    (up fuel : nat) :
  h !! r = Some nd →
  isLeaf nd = true → keys nd = [] → values nd = [] →
  1 ≤ order nd →
  insert (S up) (S fuel) less r k v h
  = Ok ((None, false), <[r := set_values [v] (set_keys [k] nd)]> h).
Proof.
  intros Hr Hleaf Hk Hv Hord.
  cbn [insert]. step. rewrite Hleaf. unfold insertIntoLeaf.
  step. rewrite Hk, find_nil. step. rewrite Hk, insertAt_0.
  step. step. step. cbn [values set_keys]. rewrite Hv, insertAt_0.
  step. step.
  cbn [mayGrowUp]. step. step. unfold maxKeys. cbn. rewrite Hleaf.
  cbn. rewrite decide_True by (unfold len; cbn; lia).
  unfold ret. by rewrite upd_upd_eq.
Qed.

(** C10: on a tree whose root is a parentless leaf with the one pair
    [(k, v)], [Remove k] returns [v] and found, keeps the same root
    address and leaves there the same leaf with no key; on that tree
    [Remove] of any key returns not-found and changes nothing, and
    [Insert] of any pair makes it the one pair of that leaf. *)
Theorem solitary_root_leaf_lifecycle t h (r : nat) nd (k : kT) (v : vT)
    (fuel : nat) :
  tree_root t = Some r →
  h !! r = Some nd →
  isLeaf nd = true → parent nd = None →
  keys nd = [k] → values nd = [v] →
  tree_less t k k = false →
  1 ≤ order nd →
  let emptied := set_values [] (set_keys [] nd) in
  Remove zeroV (S fuel) t k h = Ok ((v, true, t), <[r := emptied]> h) ∧
  isLeaf emptied = true ∧ keys emptied = [] ∧
  (∀ k', Remove zeroV (S fuel) t k' (<[r := emptied]> h)
         = Ok ((zeroV, false, t), <[r := emptied]> h)) ∧
  (∀ k' v', Insert (S fuel) t k' v' (<[r := emptied]> h)
            = Ok ((false, t),
                  <[r := set_values [v'] (set_keys [k'] nd)]> h)).
Proof.
  intros Hroot Hr Hleaf Hpar Hk Hv Hirr Hord emptied.
  assert (He : <[r := emptied]> h !! r = Some emptied)
    by (by eapply lookup_upd_eq).
  split; [|split; [|split; [|split]]].
  - unfold Remove. rewrite Hroot. unfold bind.
    by rewrite (remove_solitary _ _ _ nd k v).
  - exact Hleaf.
  - reflexivity.
  - intros k'. unfold Remove. rewrite Hroot. unfold bind.
    by rewrite (remove_keyless _ _ _ emptied).
  - intros k' v'. unfold Insert. rewrite Hroot. unfold bind.
    rewrite (insert_keyless _ _ _ emptied) by done.
    unfold ret, emptied. by rewrite upd_upd_eq.
Qed.
End solitary.

(** The hypotheses of C10 hold on the tree made by one insertion. *)
Lemma solitary_root_leaf_lifecycle_witness :
  Remove 0 1 (mkTree 4 Z.ltb (Some 0%nat)) 5
    [mkNode [5] [] None 4 None None true [50]]
  = Ok ((50, true, mkTree 4 Z.ltb (Some 0%nat)),
        [mkNode [] [] None 4 None None true []]).
Proof.
  refine (proj1 (solitary_root_leaf_lifecycle 0
                   (mkTree 4 Z.ltb (Some 0%nat))
                   [mkNode [5] [] None 4 None None true [50]]
                   0%nat (mkNode [5] [] None 4 None None true [50])
                   5 50 0%nat _ _ _ _ _ _ _ _)); try reflexivity.
  cbn. lia.
Defined.

(** ** Insertion of a key that is already stored (C1) *)

Section overwrite.
Context {kT vT : Type}.
Implicit Types (h : @heap kT vT) (nd : @node kT vT) (t : @BPlusTree kT).

(** The descent of [insert] ends in [insertIntoLeaf] at the leaf that
    [descend] names. *)
Lemma insert_descends less h (key : kT) (value : vT) (up : nat) :
  ∀ (fuel : nat) (a l : nat),
    descend fuel less h a key = Some l →
    insert up fuel less a key value h
    = insertIntoLeaf up less l key value h.
Proof.
  induction fuel as [|fuel IH]; intros a l Hd; [discriminate|].
  cbn [descend] in Hd. cbn [insert].
  destruct (h !! a) as [n|] eqn:Ha; [|discriminate]. cbn in Hd.
  step. destruct (isLeaf n) eqn:Hleaf.
  - by injection Hd as ->.
  - step. destruct (items.find key less (keys n)) as [i b] eqn:Hf.
    cbn [fst] in Hd.
    destruct (children n !! i) as [c|] eqn:Hc; [|discriminate].
    cbn in Hd. step. rewrite (at_lookup _ _ _ Hc). step. by apply IH.
Qed.


End overwrite.


(** Reading a field of an updated record. *)
Ltac fields :=
  cbn [keys children parent order next prev isLeaf values
       set_keys set_children set_parent set_order set_next set_prev
       set_isLeaf set_values].

(** ** Stealing from the next leaf (C8) *)

Section steal_next.
Context {kT vT : Type}.
Implicit Types (h : @heap kT vT) (nd xd ad : @node kT vT).

(** Removing the element at [i] and inserting at [i] overwrites it. *)
Lemma remove_then_insert {T : Type} (s : list T) (i : nat) (x : T) :
  (i < length s)%nat →
  take i (delete i s) ++ x :: drop i (delete i s) = <[i := x]> s.
Proof.
  revert i. induction s as [|y s IH]; intros [|i] Hi; cbn in *;
    try lia; [reflexivity|].
  f_equal. apply IH. lia.
Qed.

(** X20: Stealing from the next leaf [x]: its first pair moves to the end
    of the leaf [n], and in the node that the [parent] link of [n] names
    the key at the index [find] answers for the removed key is overwritten
    with the first key left in [x], not with the stolen key.  The step
    relies on that link and that index alone: when the index is one past
    the keys of that node the step faults instead. *)
Theorem steal_from_next_writes_at_the_found_index less h
    (n x a : nat) nd xd ad (key : kT) (i : nat) (b : bool) (k0 k1 : kT)
    (ks : list kT) (v0 : vT) (vs : list vT) :
  h !! n = Some nd → isLeaf nd = true →
  match prev nd with
  | None => True
  | Some p => ∃ pd, h !! p = Some pd ∧ len (keys pd) ≤ minKeys pd
  end →
  next nd = Some x → h !! x = Some xd →
  minKeys xd < len (keys xd) →
  keys xd = k0 :: k1 :: ks → values xd = v0 :: vs →
  parent nd = Some a → h !! a = Some ad →
  n ≠ x → a ≠ n → a ≠ x →
  items.find key less (keys ad) = (i, b) →
  mayStealFromNeighborLeaf less n key h
  = if decide (i < length (keys ad))%nat
    then Ok (true,
             <[a := set_keys (<[i := k1]> (keys ad)) ad]>
               (<[n := set_values (values nd ++ [v0])
                         (set_keys (keys nd ++ [k0]) nd)]>
                  (<[x := set_values vs (set_keys (k1 :: ks) xd)]> h)))
    else Err IndexOutOfRange.
Proof.
  intros Hn Hleaf Hprev Hnext Hx Hmin Hks Hvs Hpar Ha Hnx Han Hax Hf.
  unfold mayStealFromNeighborLeaf. step. rewrite Hleaf. cbn [negb].
  step. step. rewrite Hnext.
  erewrite (bind_Ok h h false).
  2:{ destruct (prev nd) as [p|]; [|reflexivity].
      destruct Hprev as (pd & Hp & Hle). step. step. unfold ret.
      by rewrite bool_decide_eq_false_2 by lia. }
  cbn beta iota. repeat (step; fields).
  rewrite bool_decide_eq_true_2 by (rewrite Hks in *; done).
  repeat (step; fields). rewrite Hks.
  rewrite (removeAt_lookup 0 k0) by reflexivity.
  repeat (step; fields). rewrite Hvs.
  rewrite (removeAt_lookup 0 v0) by reflexivity.
  repeat (step; fields).
  cbn [delete list_delete].
  change (items.at_ 0 (k1 :: ks)) with (Ok k1).
  repeat (step; fields). rewrite Hpar. repeat (step; fields).
  rewrite Hf. repeat (step; fields).
  case_decide as Hi.
  - destruct (lookup_lt_is_Some_2 (keys ad) i Hi) as [ki Hki].
    rewrite (removeAt_lookup i ki) by done.
    repeat (step; fields).
    rewrite insertAt_le
      by (rewrite length_delete by eauto; lia).
    repeat (step; fields).
    rewrite remove_then_insert by done.
    unfold ret. rewrite !upd_upd_eq. reflexivity.
  - unfold items.removeAt. rewrite lookup_ge_None_2 by lia. reflexivity.
Qed.
End steal_next.

(** The step on the tree of order 4 with root keys [3, 5, 7], after the
    key 6 has left the leaf [5, 6]: the leaf takes (7, 70) from its next
    leaf [7, 8, 9, 10] and the root key at the index 2 becomes 8. *)
Lemma steal_from_next_writes_at_the_found_index_witness :
  mayStealFromNeighborLeaf Z.ltb 3 6 steal_heap
  = Ok (true,
    [mkNode [1; 2] [] (Some 2%nat) 4 (Some 1%nat) None true [10; 20];
     mkNode [3; 4] [] (Some 2%nat) 4 (Some 3%nat) (Some 0%nat) true
       [30; 40];
     mkNode [3; 5; 8] [0%nat; 1%nat; 3%nat; 4%nat] None 4 None None false
       [];
     mkNode [5; 7] [] (Some 2%nat) 4 (Some 4%nat) (Some 1%nat) true
       [50; 70];
     mkNode [8; 9; 10] [] (Some 2%nat) 4 None (Some 3%nat) true
       [80; 90; 100]]).
Proof.
  apply (steal_from_next_writes_at_the_found_index Z.ltb steal_heap
           3%nat 4%nat 2%nat
           (mkNode [5] [] (Some 2%nat) 4 (Some 4%nat) (Some 1%nat) true
              [50])
           (mkNode [7; 8; 9; 10] [] (Some 2%nat) 4 None (Some 3%nat) true
              [70; 80; 90; 100])
           (mkNode [3; 5; 7] [0%nat; 1%nat; 3%nat; 4%nat] None 4 None None
              false [])
           6 2%nat false 7 8 [9; 10] 70 [80; 90; 100]);
    try reflexivity; try (vm_compute; lia); try (intros [=]).
  eexists. split; [reflexivity|]. vm_compute. discriminate.
Defined.

(** C8 (the code departs from it): at order 4, inserting 10, 20, ..., 110
    and then 95 gives a tree that meets the order invariant and in which
    the leaves 4 and 5 are neighbouring children of the internal node 6,
    with the separator 90 between them.  The [parent] link of leaf 4
    still names node 2, whose child it was before that node was split:
    [split] hands children over without touching their links.
    [Remove 80] arrives at leaf 4 and leaves it below its minimum; the
    steal from leaf 5 looks the separator up in the keys of node 2, gets
    the index 1 in [30], and the removal at that index faults.  No
    separator is updated and the call does not return. *)
Theorem steal_from_next_faults_on_a_stale_parent_link :
  ∃ t h nd,
    run 0 8 (ins [10; 20; 30; 40; 50; 60; 70; 80; 90; 100; 110; 95])
      (empty 4 Z.ltb) = Ok (t, h) ∧
    order_invariant 8 (t, h) = true ∧
    tree_root t = Some 7%nat ∧
    (children <$> h !! 7%nat) = Some [2%nat; 6%nat] ∧
    (keys <$> h !! 6%nat) = Some [70; 90] ∧
    (children <$> h !! 6%nat) = Some [3%nat; 4%nat; 5%nat] ∧
    (keys <$> h !! 2%nat) = Some [30] ∧
    (children <$> h !! 2%nat) = Some [0%nat; 1%nat] ∧
    h !! 4%nat = Some nd ∧
    keys nd = [70; 80] ∧ next nd = Some 5%nat ∧
    parent nd = Some 2%nat ∧
    (keys <$> h !! 5%nat) = Some [90; 95; 100; 110] ∧
    descend 8 Z.ltb h 7%nat 80 = Some 4%nat ∧
    Remove 0 8 t 80 h = Err IndexOutOfRange ∧
    mayStealFromNeighborLeaf Z.ltb 4 80
      (<[4%nat := set_values [700] (set_keys [70] nd)]> h)
    = Err IndexOutOfRange.
Proof.
  do 3 eexists. split; [vm_compute; reflexivity|].
  split; [vm_compute; reflexivity|].
  do 7 (split; [vm_compute; reflexivity|]).
  repeat split; vm_compute; reflexivity.
Qed.

(** Where the [parent] link names the node that holds both leaves, the
    step inside [Remove] updates their separator: after inserting 1..10
    at order 4, [Remove 6] leaves the root keys [3, 5, 8]. *)
Example Remove_6_steals_from_next :
  ∃ s s', run 0 8 (ins [1; 2; 3; 4; 5; 6; 7; 8; 9; 10]) (empty 4 Z.ltb)
            = Ok s ∧
          (keys <$> snd s !! 2%nat) = Some [3; 5; 7] ∧
          exec 0 8 (OpRemove 6) s = Ok s' ∧
          (keys <$> snd s' !! 2%nat) = Some [3; 5; 8] ∧
          (keys <$> snd s' !! 3%nat) = Some [5; 7] ∧
          (keys <$> snd s' !! 4%nat) = Some [8; 9; 10].
Proof.
  do 2 eexists. split; [vm_compute; reflexivity|].
  repeat split; vm_compute; reflexivity.
Qed.

(** ** Merging with the sibling-chain neighbour *)

Section merge.
Context {kT vT : Type}.
Implicit Types (h : @heap kT vT) (nd fd sd ad : @node kT vT).

Lemma search_loop_bounds (f : nat -> bool) (rounds : nat) :
  ∀ i j : nat, (i ≤ j)%nat →
    (i ≤ items.search_loop rounds f i j ≤ j)%nat.
Proof.
  induction rounds as [|rounds IH]; intros i j Hij;
    cbn [items.search_loop]; [lia|].
  destruct (Nat.ltb_spec i j) as [Hlt|]; [|lia].
  assert (i ≤ (i + j) / 2 < j)%nat as [H1 H2].
  { pose proof (Nat.div_mod_eq (i + j) 2).
    pose proof (Nat.mod_upper_bound (i + j) 2). lia. }
  destruct (f ((i + j) / 2)%nat).
  - specialize (IH i ((i + j) / 2)%nat H1). lia.
  - specialize (IH ((i + j) / 2 + 1)%nat j ltac:(lia)). lia.
Qed.

Lemma find_le (less : kT -> kT -> bool) (key : kT) (s : list kT) :
  (fst (items.find key less s) ≤ length s)%nat.
Proof.
  unfold items.find, items.sort_Search.
  match goal with
  | |- context [items.search_loop ?r ?f ?i ?j] =>
      pose proof (search_loop_bounds f r i j ltac:(lia)) as Hb;
      destruct (items.search_loop r f i j) as [|i']
  end; cbn; [lia|].
  destruct (s !! i') as [x|]; [|cbn; lia].
  destruct (less x key); cbn; lia.
Qed.
(** X21: One round of the merge check at a node [n], leaf or internal, as
    the code performs it.  The neighbour comes from the links of [n]
    itself: the node behind [prev] if there is one, which then absorbs
    [n], and otherwise the node behind [next], which [n] absorbs.  When
    the two key sequences fit in [maxKeys], the keys, children and values
    of the second are appended to the first, the first takes over the
    [next] link of the second and the node behind that link points back
    to the first.  The node that the [parent] link of [n] names then
    loses the key at the index [j] that [find] answers for the removed
    key (the last index, when [find] answers one past the end) and the
    child at [j + 1], wherever [n] and its neighbour stand among its
    children.  If that node has no key left, the absorbing node is cut
    loose and returned, whether or not that node was the root; otherwise
    the result is that of the same check at that node. *)
Theorem merge_removes_the_pair_at_the_found_index less h (fuel : nat)
    (n first second a : nat) nd fd sd ad (key : kT) (i0 : nat) (b : bool) :
  h !! n = Some nd →
  chain_pair n nd = Some (first, second) →
  h !! first = Some fd → h !! second = Some sd →
  first ≠ second →
  len (keys fd) + len (keys sd) ≤ maxKeys fd →
  match next sd with
  | Some x => x ≠ first ∧ x ≠ second ∧ x ≠ a ∧ is_Some (h !! x)
  | None => True
  end →
  parent nd = Some a → h !! a = Some ad →
  a ≠ first → a ≠ second →
  keys ad ≠ [] →
  length (children ad) = S (length (keys ad)) →
  items.find key less (keys ad) = (i0, b) →
  let j := if decide (i0 = length (keys ad)) then (i0 - 1)%nat else i0 in
  let merged :=
    set_next (next sd)
      (set_values (values fd ++ values sd)
         (set_children (children fd ++ children sd)
            (set_keys (keys fd ++ keys sd) fd))) in
  let shrunk :=
    set_children (delete (S j) (children ad))
      (set_keys (delete j (keys ad)) ad) in
  let h1 :=
    <[a := shrunk]> (relink first (next sd) (<[first := merged]> h)) in
  mayMergeWithNeighbor (S fuel) less n key h
  = if decide (length (keys ad) = 1%nat)
    then Ok ((Some first, true), <[first := set_parent None merged]> h1)
    else match mayMergeWithNeighbor fuel less a key h1 with
         | Ok ((stopAt, _), h2) => Ok ((stopAt, true), h2)
         | Err e => Err e
         end.
Proof.
  intros Hn Hpair Hfirst Hsecond Hfs Hfit Hnext Hpar Ha Haf Has Hne Hlen
    Hf j.
  pose proof (find_le less key (keys ad)) as Hi0. rewrite Hf in Hi0.
  cbn [fst] in Hi0.
  assert (Hj : (j < length (keys ad))%nat).
  { subst j. destruct (keys ad); [done|]. cbn in *. case_decide; lia. }
  intros merged shrunk h1.
  cbn [mayMergeWithNeighbor]. step.
  assert (Hn' : (n = first ∧ nd = fd) ∨ (n = second ∧ nd = sd)).
  { unfold chain_pair in Hpair. destruct (prev nd); [|destruct (next nd)];
      simplify_eq; [right|left]; split; congruence. }
  erewrite (bind_Ok h h (Some first, Some second)).
  2:{ unfold chain_pair in Hpair. destruct (prev nd) as [p|] eqn:Hp.
      - by simplify_eq.
      - step. destruct (next nd); by simplify_eq. }
  cbn beta iota. repeat (step; fields).
  rewrite decide_False by lia.
  repeat (step; fields). rewrite !upd_upd_eq. fold merged.
  set (hr := relink first (next sd) (<[first := merged]> h)) in *.
  assert (Hrelink :
    (match next sd with
     | Some _ => wr (next sd) (set_prev (Some first))
     | None => ret ()
     end) (<[first := merged]> h) = Ok ((), hr)).
  { subst hr. unfold relink. destruct (next sd) as [x|] eqn:Hx;
      [|reflexivity].
    destruct Hnext as (Hxf & Hxs & Hxa & [xd Hxd]).
    rewrite lookup_upd_ne by congruence. rewrite Hxd.
    unfold wr. rewrite lookup_upd_ne by congruence. by rewrite Hxd. }
  assert (Hr : ∀ c, match next sd with Some x => x ≠ c | None => True end →
                    hr !! c = <[first := merged]> h !! c).
  { intros c Hc. subst hr. unfold relink.
    destruct (next sd) as [x|]; [|done].
    destruct (<[first := merged]> h !! x); [|done].
    by rewrite lookup_upd_ne. }
  assert (Hra : hr !! a = Some ad).
  { rewrite Hr by (destruct (next sd); tauto).
    by rewrite lookup_upd_ne. }
  assert (Hrf : hr !! first = Some merged).
  { rewrite Hr by (destruct (next sd); tauto).
    by eapply lookup_upd_eq. }
  assert (Hrn : ∃ nd', hr !! n = Some nd' ∧ parent nd' = Some a).
  { destruct Hn' as [[-> ->]|[-> ->]].
    - exists merged. done.
    - exists sd. split; [|done].
      rewrite Hr by (destruct (next sd); tauto).
      by rewrite lookup_upd_ne. }
  destruct Hrn as (nd' & Hrn & Hpar').
  rewrite (bind_Ok _ _ _ _ _ Hrelink).
  repeat (step; fields). rewrite Hpar'. repeat (step; fields).
  rewrite Hf. repeat (step; fields).
  assert (Hz : (if decide (Z.of_nat i0 = len (keys ad))
                then Z.of_nat i0 - 1 else Z.of_nat i0) = Z.of_nat j).
  { subst j. unfold len. destruct (keys ad); [done|]. cbn [length] in *.
    repeat case_decide; lia. }
  rewrite Hz. rewrite decide_False by lia.
  replace (Z.to_nat (Z.of_nat j + 1)) with (S j) by lia.
  rewrite Nat2Z.id.
  destruct (lookup_lt_is_Some_2 (keys ad) j Hj) as [kj Hkj].
  destruct (lookup_lt_is_Some_2 (children ad) (S j) ltac:(lia))
    as [cj Hcj].
  repeat (step; fields). rewrite (removeAt_lookup j kj) by done.
  repeat (step; fields). rewrite (removeAt_lookup (S j) cj) by done.
  repeat (step; fields). rewrite !upd_upd_eq.
  change (set_children (delete (S j) (children ad))
            (set_keys (delete j (keys ad)) ad)) with shrunk.
  fold h1.
  assert (Hlen0 : len (delete j (keys ad)) = 0
                  ↔ length (keys ad) = 1%nat).
  { unfold len. rewrite length_delete by eauto. lia. }
  destruct (decide (length (keys ad) = 1%nat)) as [H1|H1].
  - rewrite decide_True by (by apply Hlen0).
    assert (h1 !! first = Some merged).
    { subst h1. by rewrite lookup_upd_ne. }
    repeat (step; fields). reflexivity.
  - rewrite decide_False by (by rewrite Hlen0).
    unfold bind. destruct (mayMergeWithNeighbor fuel less a key h1)
      as [[[stopAt ?] h2]|e]; reflexivity.
Qed.
End merge.

(** The merge check at the internal node 2 of [merge_heap]: it has no
    [prev], so it absorbs node 12, the node behind its [next] link;
    node 9, which followed node 12, now points back to node 2; the
    node 6 is left without a key and node 2 is returned, cut loose. *)
Lemma merge_removes_the_pair_at_the_found_index_witness :
  mayMergeWithNeighbor 1 Z.ltb 2 2 merge_heap
  = Ok ((Some 2%nat, true),
        <[2%nat := inner3 [1; 15] [0%nat; 15%nat; 10%nat; 11%nat] None
                     (Some 9%nat) None]>
          (<[6%nat := inner3 [] [2%nat] (Some 14%nat) (Some 13%nat) None]>
             (<[9%nat := inner3 [11] [7%nat; 8%nat] (Some 6%nat)
                           (Some 5%nat) (Some 2%nat)]> merge_heap))).
Proof.
  exact (merge_removes_the_pair_at_the_found_index Z.ltb merge_heap 0
           2%nat 2%nat 12%nat 6%nat
           (inner3 [1] [0%nat; 15%nat] (Some 6%nat) (Some 12%nat) None)
           (inner3 [1] [0%nat; 15%nat] (Some 6%nat) (Some 12%nat) None)
           (inner3 [15] [10%nat; 11%nat] (Some 6%nat) (Some 9%nat)
              (Some 2%nat))
           (inner3 [5] [2%nat; 5%nat] (Some 14%nat) (Some 13%nat) None)
           2 0%nat false
           eq_refl eq_refl eq_refl eq_refl
           ltac:(discriminate)
           ltac:(vm_compute; discriminate)
           ltac:(repeat split; try discriminate; by eexists)
           eq_refl eq_refl
           ltac:(discriminate) ltac:(discriminate) ltac:(discriminate)
           eq_refl eq_refl).
Defined.

(** [merge_heap] is the heap of the run: [Remove 2] ends in the state the
    merge check at node 2 produces from it. *)
Example merge_heap_is_reached :
  ∃ s s', run 0 8 (ins [1; 2; 3; 4; 5; 6; 7; 8; 9; 10; 11; 12; 13; 14; 15;
                        16; 0; -1]) (empty 3 Z.ltb) = Ok s ∧
          exec 0 8 (OpRemove 2) s = Ok s' ∧
          mayMergeWithNeighbor 1 Z.ltb 2 2 merge_heap
          = Ok ((Some 2%nat, true), snd s').
Proof.
  do 2 eexists. split; [vm_compute; reflexivity|].
  split; vm_compute; reflexivity.
Qed.

(** ** Where [find] sends a key equal to a separator (C3) *)

Section ties.
Context {kT : Type}.
Variable less : kT -> kT -> bool.
Hypothesis less_irrefl : ∀ x, less x x = false.
Hypothesis less_asym : ∀ x y, less x y = true → less y x = false.

(** The bisection returns the boundary of a predicate that is false
    below it and true from it on. *)
Lemma search_loop_boundary (f : nat -> bool) (n b : nat) :
  (∀ k, (k < n)%nat → f k = true ↔ (b ≤ k)%nat) →
  ∀ (rounds i j : nat),
    (i ≤ b ≤ j)%nat → (j ≤ n)%nat → (j - i ≤ rounds)%nat →
    items.search_loop rounds f i j = b.
Proof.
  intros Hf. induction rounds as [|rounds IH]; intros i j Hb Hn Hr;
    cbn [items.search_loop]; [lia|].
  destruct (Nat.ltb_spec i j) as [Hlt|]; [|lia].
  pose proof (Nat.div_mod_eq (i + j) 2) as Hd.
  pose proof (Nat.mod_upper_bound (i + j) 2 ltac:(lia)) as Hm.
  destruct (f ((i + j) / 2)%nat) eqn:Hh.
  - apply Hf in Hh; [|lia]. apply IH; lia.
  - assert (¬ (b ≤ (i + j) / 2)%nat).
    { intros Hle. apply Hf in Hle; [congruence|lia]. }
    apply IH; lia.
Qed.

(** C3 (the code departs from it): in a strictly increasing key sequence
    [find] answers, for a key equal to [keys[j]], the index [j] itself
    (with [found] set); [insert] and [remove] descend into the child at
    that index, so the tie goes to [children[j]], the child to the left
    of the separator, and not to [children[j + 1]]. *)
Theorem find_of_a_separator_is_its_own_index (s : list kT) (j : nat)
    (key : kT) :
  (∀ a b x y, (a < b)%nat → s !! a = Some x → s !! b = Some y →
              less x y = true) →
  s !! j = Some key →
  items.find key less s = (j, true).
Proof.
  intros Hsorted Hj.
  assert (Hlt : (j < length s)%nat) by (by eapply lookup_lt_Some).
  unfold items.find, items.sort_Search.
  rewrite (search_loop_boundary _ (length s) (S j)); [|
    |lia|lia|lia].
  - by rewrite Hj, less_irrefl.
  - intros k Hk. destruct (lookup_lt_is_Some_2 s k Hk) as [x Hx].
    rewrite Hx. split.
    + intros Hless. destruct (decide (S j ≤ k)%nat) as [|Hn]; [done|].
      destruct (decide (k = j)) as [->|Hkj].
      * rewrite Hj in Hx. injection Hx as <-.
        by rewrite less_irrefl in Hless.
      * assert (less x key = true)
          by (eapply (Hsorted k j); [lia|done..]).
        apply less_asym in Hless. congruence.
    + intros Hle. eapply (Hsorted j k); [lia|done..].
Qed.
End ties.

(** The separator 5 of the root keys [3, 5, 7]: [find] answers index 1,
    the child to its left. *)
Lemma find_of_a_separator_is_its_own_index_witness :
  items.find 5 Z.ltb [3; 5; 7] = (1%nat, true).
Proof.
  apply (find_of_a_separator_is_its_own_index Z.ltb Z.ltb_irrefl).
  - intros x y H. apply Z.ltb_lt in H. apply Z.ltb_ge. lia.
  - intros [|[|[|a]]] [|[|[|b]]] x y Hab Ha Hb;
      cbn in Ha, Hb; simplify_eq; try lia; reflexivity.
  - reflexivity.
Defined.


(** * Further properties of the code *)

(** ** The slice primitives *)

Section items_round_trips.
Context {T : Type}.
Implicit Types (s : list T).

(** X1: [removeAt] undoes [insertAt]: removing at the index just inserted at
    returns the inserted item and the sequence as it was. *)
Theorem removeAt_undoes_insertAt (i : nat) (x : T) s s' :
  items.insertAt i x s = Ok s' →
  items.removeAt i s' = Ok (x, s).
Proof.
  unfold items.insertAt. case_decide as Hi; [|discriminate].
  intros [= <-].
  assert (Hmid : ∀ l1 l2 : list T,
             items.removeAt (length l1) (l1 ++ x :: l2) = Ok (x, l1 ++ l2)).
  { intros l1 l2. unfold items.removeAt.
    rewrite list_lookup_middle by done. by rewrite delete_middle. }
  specialize (Hmid (take i s) (drop i s)).
  rewrite length_take, Nat.min_l, take_drop in Hmid by lia. exact Hmid.
Qed.

(** X2: [insertAt] undoes [removeAt]: putting the removed item back at its
    index gives the sequence as it was. *)
Theorem insertAt_undoes_removeAt (i : nat) (x : T) s s' :
  items.removeAt i s = Ok (x, s') →
  items.insertAt i x s' = Ok s.
Proof.
  unfold items.removeAt. destruct (s !! i) as [y|] eqn:Hy; [|discriminate].
  intros [= -> <-].
  assert (Hi : (i < length s)%nat) by (by eapply lookup_lt_Some).
  rewrite insertAt_le by (rewrite length_delete by eauto; lia).
  rewrite remove_then_insert by done. by rewrite list_insert_id.
Qed.

(** X3: [pop] undoes an append at the end, and faults on the empty sequence
    only. *)
Theorem pop_undoes_append (x : T) s :
  items.pop (s ++ [x]) = Ok (x, s) ∧
  (items.pop s = Err IndexOutOfRange ↔ s = []).
Proof.
  split.
  - unfold items.pop. rewrite length_app, Nat.add_1_r.
    rewrite list_lookup_middle by done. by rewrite take_app_length.
  - unfold items.pop. destruct s as [|y s]; [done|]. cbn [length].
    destruct (lookup_lt_is_Some_2 (y :: s) (length s)) as [z Hz];
      [cbn; lia|].
    rewrite Hz. split; discriminate.
Qed.

(** [truncate] and the slice from the same index cut a sequence in two
    parts that put together are the sequence: a split loses nothing. *)
Theorem truncate_and_from_partition (i : nat) s a b :
  items.truncate i s = Ok a → items.from i s = Ok b →
  a ++ b = s ∧ length a = i.
Proof.
  unfold items.truncate, items.from. case_decide; [|discriminate].
  intros [= <-] [= <-]. split; [apply take_drop|].
  rewrite length_take. lia.
Qed.
End items_round_trips.

Lemma removeAt_undoes_insertAt_witness :
  items.removeAt 1 [10; 15; 20] = Ok (15, [10; 20]).
Proof.
  apply (removeAt_undoes_insertAt 1%nat 15 [10; 20]). reflexivity.
Defined.

Lemma insertAt_undoes_removeAt_witness :
  items.insertAt 1 15 [10; 20] = Ok [10; 15; 20].
Proof.
  apply (insertAt_undoes_removeAt 1%nat 15 [10; 15; 20]). reflexivity.
Defined.

Lemma truncate_and_from_partition_witness :
  [1; 2] ++ [3; 4; 5] = [1; 2; 3; 4; 5] ∧ length [1; 2] = 2%nat.
Proof.
  apply (truncate_and_from_partition 2%nat [1; 2; 3; 4; 5]); reflexivity.
Defined.

(** ** [find] on ordered sequences *)

Section find_facts.
Context {kT : Type}.
Variable less : kT -> kT -> bool.

(** A predicate that stays true once it is true has a boundary. *)
Lemma monotone_boundary (f : nat -> bool) (n : nat) :
  (∀ k k', (k ≤ k')%nat → (k' < n)%nat → f k = true → f k' = true) →
  ∃ b, (b ≤ n)%nat ∧ ∀ k, (k < n)%nat → f k = true ↔ (b ≤ k)%nat.
Proof.
  induction n as [|n IH]; intros Hmono.
  - exists 0%nat. split; [lia|]. intros k Hk. lia.
  - destruct IH as (b & Hb & Hbk).
    { intros k k' ? ? ?. apply (Hmono k k'); [lia|lia|done]. }
    destruct (f n) eqn:Hn.
    + exists b. split; [lia|]. intros k Hk.
      destruct (decide (k = n)) as [->|]; [|apply Hbk; lia].
      split; [lia|done].
    + exists (if decide (b = n) then S n else b).
      assert (Hnone : ∀ k, (k < n)%nat → f k = false).
      { intros k Hk. destruct (f k) eqn:Hfk; [|done].
        rewrite (Hmono k n) in Hn; [done|lia|lia|done]. }
      case_decide as Hbn.
      * split; [lia|]. intros k Hk. split; [|lia].
        destruct (decide (k = n)) as [->|]; [congruence|].
        rewrite Hnone by lia. done.
      * assert (b < n)%nat by lia.
        pose proof (proj2 (Hbk b ltac:(lia)) ltac:(lia)) as Hfb.
        rewrite Hnone in Hfb by lia. done.
Qed.

(** [sort.Search] on a predicate that stays true once it is true: the
    answer is the first index at which it holds, or [n]. *)
Lemma sort_Search_first (f : nat -> bool) (n : nat) :
  (∀ k k', (k ≤ k')%nat → (k' < n)%nat → f k = true → f k' = true) →
  (items.sort_Search n f ≤ n)%nat ∧
  (∀ k, (k < items.sort_Search n f)%nat → f k = false) ∧
  (∀ k, (items.sort_Search n f ≤ k)%nat → (k < n)%nat → f k = true).
Proof.
  intros Hmono. destruct (monotone_boundary f n Hmono) as (b & Hb & Hbk).
  unfold items.sort_Search.
  rewrite (search_loop_boundary f n b Hbk) by lia.
  split; [done|]. split.
  - intros k Hk. destruct (f k) eqn:Hfk; [|done].
    apply Hbk in Hfk; lia.
  - intros k Hk Hn. by apply Hbk.
Qed.

(** X4: The index [find] answers never lies beyond the sequence, whatever
    the comparison and the order of the elements, so the [insertAt] that
    follows it in [insertIntoLeaf] and [mayGrowUp] never faults. *)
Theorem insertAt_at_the_found_index_never_faults (key : kT)
    (s : list kT) :
  ∃ s', items.insertAt (fst (items.find key less s)) key s = Ok s' ∧
        length s' = S (length s).
Proof.
  pose proof (find_le less key s) as Hle.
  rewrite insertAt_le by done. eexists. split; [done|].
  rewrite length_app. cbn [length]. rewrite length_take, length_drop. lia.
Qed.

Hypothesis less_trans :
  ∀ x y z, less x y = true → less y z = true → less x z = true.

(** What [find] answers on an increasing sequence. *)
Lemma find_on_increasing (key : kT) (s : list kT) (i : nat) (found : bool) :
  increasing less s →
  items.find key less s = (i, found) →
  (i ≤ length s)%nat ∧
  (∀ k x, (k < i)%nat → s !! k = Some x → less key x = false) ∧
  (∀ k x, (i < k)%nat → s !! k = Some x → less key x = true) ∧
  (if found
   then ∃ x, s !! i = Some x ∧ less x key = false ∧ less key x = false
   else (∀ k x, (k < i)%nat → s !! k = Some x → less x key = true) ∧
        (∀ x, s !! i = Some x → less key x = true)).
Proof.
  intros Hinc. unfold items.find.
  set (f := fun i : nat => match s !! i with
                           | Some x => less key x
                           | None => false
                           end).
  assert (Hmono : ∀ k k', (k ≤ k')%nat → (k' < length s)%nat →
                          f k = true → f k' = true).
  { intros k k' Hk Hk'. unfold f.
    destruct (s !! k) as [x|] eqn:Hx; [|done].
    destruct (lookup_lt_is_Some_2 s k' Hk') as [y Hy]. rewrite Hy.
    intros Hless. destruct (decide (k = k')) as [->|]; [congruence|].
    eapply less_trans; [exact Hless|].
    eapply (Hinc k k'); [lia|done..]. }
  destruct (sort_Search_first f (length s) Hmono) as (Hr & Hbelow & Habove).
  set (r := items.sort_Search (length s) f) in *.
  assert (Hlow : ∀ k x, (k < r)%nat → s !! k = Some x → less key x = false).
  { intros k x Hk Hx. specialize (Hbelow k Hk). unfold f in Hbelow.
    by rewrite Hx in Hbelow. }
  assert (Hhigh : ∀ k x, (r ≤ k)%nat → s !! k = Some x → less key x = true).
  { intros k x Hk Hx. assert (k < length s)%nat by (by eapply lookup_lt_Some).
    specialize (Habove k Hk ltac:(done)). unfold f in Habove.
    by rewrite Hx in Habove. }
  destruct r as [|r'] eqn:Er.
  { intros [= <- <-]. split; [lia|]. split; [intros; lia|].
    split; [intros k x ? ?; apply (Hhigh k x); [lia|done]|].
    split; [intros; lia|]. intros x Hx. apply (Hhigh 0%nat x); [lia|done]. }
  destruct (lookup_lt_is_Some_2 s r' ltac:(lia)) as [x Hx]. rewrite Hx.
  destruct (less x key) eqn:Hxk; intros [= <- <-].
  - split; [lia|]. split; [done|].
    split; [intros k y ? ?; apply (Hhigh k y); [lia|done]|]. split.
    + intros k y Hk Hy. destruct (decide (k = r')) as [->|]; [congruence|].
      eapply less_trans; [|exact Hxk]. eapply (Hinc k r'); [lia|done..].
    + intros y Hy. apply (Hhigh (S r') y); [lia|done].
  - split; [lia|]. split; [intros k y ? ?; apply (Hlow k y); [lia|done]|].
    split; [intros k y ? ?; apply (Hhigh k y); [lia|done]|].
    exists x. split; [done|]. split; [done|]. apply (Hlow r' x); [lia|done].
Qed.

Lemma insert_keeps_increasing (key : kT) (s : list kT) (i : nat) :
  increasing less s →
  items.find key less s = (i, false) →
  (i ≤ length s)%nat ∧
  increasing less (take i s ++ key :: drop i s) ∧
  (take i s ++ key :: drop i s) !! i = Some key ∧
  length (take i s ++ key :: drop i s) = S (length s).
Proof.
  intros Hinc Hf.
  destruct (find_on_increasing key s i false Hinc Hf)
    as (Hi & _ & Habove & Hbelow & Hat).
  split; [done|].
  set (s' := take i s ++ key :: drop i s).
  assert (Hlen : length (take i s) = i) by (rewrite length_take; lia).
  assert (Hmid : s' !! i = Some key).
  { subst s'. apply list_lookup_middle. by rewrite Hlen. }
  assert (Hlt : ∀ a, (a < i)%nat → s' !! a = s !! a).
  { intros a Ha. subst s'. rewrite lookup_app_l by lia.
    by apply lookup_take_lt. }
  assert (Hgt : ∀ a, (i < a)%nat → s' !! a = s !! (a - 1)%nat).
  { intros a Ha. subst s'. rewrite lookup_app_r by lia. rewrite Hlen.
    rewrite lookup_cons_ne_0 by lia. rewrite lookup_drop. f_equal. lia. }
  split; [|split; [done|]].
  - intros a b x y Hab Hx Hy.
    destruct (decide (a < i)%nat) as [Hai|Hai].
    + rewrite Hlt in Hx by done.
      destruct (decide (b < i)%nat) as [Hbi|Hbi].
      * rewrite Hlt in Hy by done. by eapply (Hinc a b).
      * destruct (decide (b = i)) as [->|].
        -- rewrite Hmid in Hy. injection Hy as <-. by eapply Hbelow.
        -- rewrite Hgt in Hy by lia. eapply (Hinc a (b - 1)%nat); [lia|done..].
    + destruct (decide (a = i)) as [->|].
      * rewrite Hmid in Hx. injection Hx as <-.
        rewrite Hgt in Hy by lia.
        destruct (decide (b - 1 = i)%nat) as [Hbi|Hbi].
        -- rewrite Hbi in Hy. by apply Hat.
        -- eapply (Habove (b - 1)%nat); [lia|done].
      * rewrite Hgt in Hx by lia. rewrite Hgt in Hy by lia.
        eapply (Hinc (a - 1)%nat (b - 1)%nat); [lia|done..].
  - subst s'. rewrite length_app. cbn [length].
    rewrite length_take, length_drop. lia.
Qed.

(** X5: When [find] does not find the key in an increasing sequence, the
    [insertAt] at the index it answers gives an increasing sequence
    again, one longer, with the key at that index. *)
Theorem insertAt_at_the_found_index_keeps_increasing (key : kT)
    (s : list kT) (i : nat) :
  increasing less s →
  items.find key less s = (i, false) →
  ∃ s', items.insertAt i key s = Ok s' ∧ increasing less s' ∧
        s' !! i = Some key ∧ length s' = S (length s).
Proof.
  intros Hinc Hf.
  destruct (insert_keeps_increasing key s i Hinc Hf) as (Hi & H).
  rewrite insertAt_le by done. eexists. split; [reflexivity|exact H].
Qed.

Hypothesis less_irrefl : ∀ x, less x x = false.
Hypothesis less_total :
  ∀ x y, less x y = false → less y x = false → x = y.

(** X6: On an increasing sequence and a strict total order, [find] reports
    a key as found exactly when the sequence holds it, and then answers
    its index. *)
Theorem find_reports_membership (key : kT) (s : list kT) :
  increasing less s →
  (snd (items.find key less s) = true ↔ key ∈ s) ∧
  (snd (items.find key less s) = true →
   s !! fst (items.find key less s) = Some key).
Proof.
  intros Hinc.
  destruct (items.find key less s) as [i found] eqn:Hf. cbn [fst snd].
  pose proof (find_on_increasing key s i found Hinc Hf)
    as (_ & _ & _ & Hfound).
  assert (Hhit : found = true → s !! i = Some key).
  { intros ->. destruct Hfound as (x & Hx & H1 & H2).
    by rewrite (less_total key x H2 H1). }
  split; [|done]. split.
  - intros Ht. apply (list_elem_of_lookup_2 s i key). by apply Hhit.
  - intros [j Hj]%list_elem_of_lookup_1.
    assert (Hasym : ∀ x y, less x y = true → less y x = false).
    { intros x y Hxy. destruct (less y x) eqn:Hyx; [|done].
      pose proof (less_trans x y x Hxy Hyx) as Hc.
      by rewrite less_irrefl in Hc. }
    pose proof (find_of_a_separator_is_its_own_index less less_irrefl
                  Hasym s j key Hinc Hj) as Hpresent.
    rewrite Hf in Hpresent. by injection Hpresent.
Qed.
End find_facts.

Lemma increasing_1_3_7 : increasing Z.ltb [1; 3; 7].
Proof.
  intros [|[|[|a]]] [|[|[|b]]] x y Hab Ha Hb;
    cbn in Ha, Hb; simplify_eq; try lia; reflexivity.
Qed.

Lemma Zltb_trans (x y z : Z) :
  (x <? y) = true → (y <? z) = true → (x <? z) = true.
Proof. rewrite !Z.ltb_lt. lia. Qed.

Lemma Zltb_total (x y : Z) : (x <? y) = false → (y <? x) = false → x = y.
Proof. rewrite !Z.ltb_ge. lia. Qed.

Lemma insertAt_at_the_found_index_keeps_increasing_witness :
  ∃ s', items.insertAt 2 5 [1; 3; 7] = Ok s' ∧ increasing Z.ltb s' ∧
        s' !! 2%nat = Some 5 ∧ length s' = 4%nat.
Proof.
  apply (insertAt_at_the_found_index_keeps_increasing Z.ltb Zltb_trans
           5 [1; 3; 7] 2%nat increasing_1_3_7).
  reflexivity.
Defined.

Lemma find_reports_membership_witness :
  (snd (items.find 3 Z.ltb [1; 3; 7]) = true ↔ 3 ∈ [1; 3; 7]) ∧
  (snd (items.find 3 Z.ltb [1; 3; 7]) = true →
   [1; 3; 7] !! fst (items.find 3 Z.ltb [1; 3; 7]) = Some 3).
Proof.
  apply (find_reports_membership Z.ltb Zltb_trans Z.ltb_irrefl Zltb_total
           3 [1; 3; 7] increasing_1_3_7).
Defined.

(** ** Operations that stay inside one leaf *)

Section in_one_leaf.
Context {kT vT : Type}.
Variable zeroV : vT.
Implicit Types (h : @heap kT vT) (nd : @node kT vT) (t : @BPlusTree kT).

(** The descent of [remove] ends in [removeFromLeaf] at the leaf that
    [descend] names. *)
Lemma remove_descends less h (key : kT) (up : nat) :
  ∀ (fuel : nat) (a l : nat),
    descend fuel less h a key = Some l →
    remove zeroV up fuel less a key h = removeFromLeaf zeroV up less l key h.
Proof.
  induction fuel as [|fuel IH]; intros a l Hd; [discriminate|].
  cbn [descend] in Hd. cbn [remove].
  destruct (h !! a) as [n|] eqn:Ha; [|discriminate]. cbn in Hd.
  step. destruct (isLeaf n) eqn:Hleaf.
  - by injection Hd as ->.
  - step. destruct (items.find key less (keys n)) as [i b] eqn:Hf.
    cbn [fst] in Hd.
    destruct (children n !! i) as [c|] eqn:Hc; [|discriminate].
    cbn in Hd. step. rewrite (at_lookup _ _ _ Hc). step. by apply IH.
Qed.

(** Rewriting the keys and values of a leaf does not move any descent. *)
Lemma descend_leaf_update less h (l : nat) nd (ks : list kT)
    (vs : list vT) (key : kT) :
  h !! l = Some nd → isLeaf nd = true →
  ∀ (fuel : nat) (a : nat),
    descend fuel less (<[l := set_values vs (set_keys ks nd)]> h) a key
    = descend fuel less h a key.
Proof.
  intros Hl Hleaf. induction fuel as [|fuel IH]; intros a; [done|].
  cbn [descend]. destruct (decide (a = l)) as [->|Hne].
  - rewrite (lookup_upd_eq h l nd) by done. rewrite Hl. cbn.
    by rewrite Hleaf.
  - rewrite lookup_upd_ne by done.
    destruct (h !! a) as [n|]; [|done]. cbn.
    destruct (isLeaf n); [done|].
    destruct (children n !! _) as [c|]; [|done]. cbn. apply IH.
Qed.

Lemma removeFromLeaf_missing less h (l : nat) nd (key : kT) (up i : nat) :
  h !! l = Some nd →
  items.find key less (keys nd) = (i, false) →
  removeFromLeaf zeroV up less l key h = Ok ((None, zeroV, false), h).
Proof.
  intros Hl Hf. unfold removeFromLeaf. step. by rewrite Hf.
Qed.

Lemma insertIntoLeaf_room less h (l : nat) nd (key : kT) (value : vT)
    (up i : nat) :
  h !! l = Some nd →
  items.find key less (keys nd) = (i, false) →
  length (values nd) = length (keys nd) →
  len (keys nd) < maxKeys nd →
  insertIntoLeaf (S up) less l key value h
  = Ok ((None, false),
        <[l := set_values (take i (values nd) ++ value :: drop i (values nd))
                 (set_keys (take i (keys nd) ++ key :: drop i (keys nd))
                    nd)]> h).
Proof.
  intros Hl Hf Hlen Hroom.
  pose proof (find_le less key (keys nd)) as Hi. rewrite Hf in Hi.
  cbn [fst] in Hi.
  unfold insertIntoLeaf. step. rewrite Hf. step.
  rewrite insertAt_le by done. repeat (step; fields).
  rewrite insertAt_le by lia. repeat (step; fields).
  cbn [mayGrowUp]. repeat (step; fields).
  rewrite decide_True.
  - unfold ret. by rewrite !upd_upd_eq.
  - unfold maxKeys in *. fields. unfold len in *.
    rewrite length_app. cbn [length].
    rewrite length_take, length_drop. destruct (isLeaf nd); cbn in *; lia.
Qed.

Lemma removeFromLeaf_plain less h (l : nat) nd (key k : kT) (v : vT)
    (up i : nat) :
  h !! l = Some nd →
  items.find key less (keys nd) = (i, true) →
  keys nd !! i = Some k → values nd !! i = Some v →
  parent nd = None ∨ minKeys nd ≤ len (keys nd) - 1 →
  removeFromLeaf zeroV up less l key h
  = Ok ((None, v, true),
        <[l := set_values (delete i (values nd))
                 (set_keys (delete i (keys nd)) nd)]> h).
Proof.
  intros Hl Hf Hk Hv Hok. unfold removeFromLeaf. step. rewrite Hf.
  cbn [negb]. step. rewrite (removeAt_lookup i k) by done.
  repeat (step; fields). rewrite (removeAt_lookup i v) by done.
  repeat (step; fields).
  assert (Hgo : bool_decide (parent nd = None)
                || bool_decide
                     (minKeys
                        (set_values (delete i (values nd))
                           (set_keys (delete i (keys nd)) nd))
                      ≤ len (delete i (keys nd))) = true).
  { destruct Hok as [Hp|Hm].
    - by rewrite (bool_decide_eq_true_2 _ Hp).
    - apply orb_true_iff. right. apply bool_decide_eq_true_2.
      assert (i < length (keys nd))%nat by (by eapply lookup_lt_Some).
      unfold len in *. rewrite length_delete by eauto.
      unfold minKeys, degree in *. fields. lia. }
  rewrite Hgo. unfold ret. by rewrite !upd_upd_eq.
Qed.

(** X7: [Remove] of a key that [find] does not find in the leaf the descent
    reaches returns the zero value and not-found; the handle and the heap
    are exactly as before. *)
Theorem Remove_of_a_missing_key_changes_nothing t h (r l : nat) nd
    (key : kT) (fuel i : nat) :
  tree_root t = Some r →
  descend fuel (tree_less t) h r key = Some l →
  h !! l = Some nd →
  items.find key (tree_less t) (keys nd) = (i, false) →
  Remove zeroV fuel t key h = Ok ((zeroV, false, t), h).
Proof.
  intros Hroot Hd Hl Hf. unfold Remove. rewrite Hroot. unfold bind.
  rewrite (remove_descends _ _ _ _ _ _ _ Hd).
  by rewrite (removeFromLeaf_missing _ _ _ _ _ _ _ Hl Hf).
Qed.

(** X9: [Insert] of a key that [find] does not find, into a leaf with room
    for one more, writes the pair at the index [find] answers in that
    leaf and touches no other node; the handle keeps its root and the
    result is [false]. *)
Theorem Insert_with_room_changes_one_leaf t h (r l : nat) nd (key : kT)
    (value : vT) (fuel i : nat) :
  tree_root t = Some r →
  descend fuel (tree_less t) h r key = Some l →
  h !! l = Some nd →
  items.find key (tree_less t) (keys nd) = (i, false) →
  length (values nd) = length (keys nd) →
  len (keys nd) < maxKeys nd →
  Insert fuel t key value h
  = Ok ((false, t),
        <[l := set_values (take i (values nd) ++ value :: drop i (values nd))
                 (set_keys (take i (keys nd) ++ key :: drop i (keys nd))
                    nd)]> h).
Proof.
  intros Hroot Hd Hl Hf Hlen Hroom. unfold Insert. rewrite Hroot.
  unfold bind. rewrite (insert_descends _ _ _ _ _ _ _ _ Hd).
  destruct fuel as [|fuel]; [discriminate|].
  by rewrite (insertIntoLeaf_room _ _ _ _ _ _ _ _ Hl Hf Hlen Hroom).
Qed.

(** X10: [Remove] of a key found in the reached leaf, when that leaf is the
    parentless root or keeps its minimum, deletes the pair at the found
    index in that leaf, returns its value and found, and touches no
    other node. *)
Theorem Remove_without_underflow_changes_one_leaf t h (r l : nat) nd
    (key k : kT) (v : vT) (fuel i : nat) :
  tree_root t = Some r →
  descend fuel (tree_less t) h r key = Some l →
  h !! l = Some nd →
  items.find key (tree_less t) (keys nd) = (i, true) →
  keys nd !! i = Some k → values nd !! i = Some v →
  parent nd = None ∨ minKeys nd ≤ len (keys nd) - 1 →
  Remove zeroV fuel t key h
  = Ok ((v, true, t),
        <[l := set_values (delete i (values nd))
                 (set_keys (delete i (keys nd)) nd)]> h).
Proof.
  intros Hroot Hd Hl Hf Hk Hv Hok. unfold Remove. rewrite Hroot.
  unfold bind. rewrite (remove_descends _ _ _ _ _ _ _ Hd).
  by rewrite (removeFromLeaf_plain _ _ _ _ _ _ _ _ _ Hl Hf Hk Hv Hok).
Qed.
End in_one_leaf.

(** ** Inserting a key and removing it again *)

Section round_trip.
Context {kT vT : Type}.
Variable zeroV : vT.
Implicit Types (h : @heap kT vT) (nd : @node kT vT) (t : @BPlusTree kT).

(** X11: On a strict order, [Insert] of a fresh key into a leaf with room,
    whose keys are increasing and which is the parentless root or holds
    its minimum, followed by [Remove] of that key: the removal returns
    the inserted value and found, and the heap is exactly the heap
    before the insertion. *)
Theorem Insert_then_Remove_restores_the_heap t h (r l : nat) nd
    (key : kT) (value : vT) (fuel i : nat) :
  (∀ x, tree_less t x x = false) →
  (∀ x y z, tree_less t x y = true → tree_less t y z = true →
            tree_less t x z = true) →
  tree_root t = Some r →
  descend fuel (tree_less t) h r key = Some l →
  h !! l = Some nd → isLeaf nd = true →
  increasing (tree_less t) (keys nd) →
  items.find key (tree_less t) (keys nd) = (i, false) →
  length (values nd) = length (keys nd) →
  len (keys nd) < maxKeys nd →
  parent nd = None ∨ minKeys nd ≤ len (keys nd) →
  ∃ h1, Insert fuel t key value h = Ok ((false, t), h1) ∧
        Remove zeroV fuel t key h1 = Ok ((value, true, t), h).
Proof.
  intros Hirr Htrans Hroot Hd Hl Hleaf Hinc Hf Hlen Hroom Hmin.
  destruct (insert_keeps_increasing (tree_less t) Htrans key (keys nd) i
              Hinc Hf) as (Hi & Hinc' & Hat & Hlen').
  set (ks' := take i (keys nd) ++ key :: drop i (keys nd)) in *.
  set (vs' := take i (values nd) ++ value :: drop i (values nd)).
  set (nd1 := set_values vs' (set_keys ks' nd)).
  exists (<[l := nd1]> h). split.
  { unfold Insert. rewrite Hroot. unfold bind.
    rewrite (insert_descends _ _ _ _ _ _ _ _ Hd).
    destruct fuel as [|fuel]; [discriminate|].
    by rewrite (insertIntoLeaf_room _ _ _ _ _ _ _ _ Hl Hf Hlen Hroom). }
  assert (Hasym : ∀ x y, tree_less t x y = true → tree_less t y x = false).
  { intros x y Hxy. destruct (tree_less t y x) eqn:Hyx; [|done].
    pose proof (Htrans x y x Hxy Hyx) as Hc. by rewrite Hirr in Hc. }
  assert (Hf' : items.find key (tree_less t) ks' = (i, true))
    by (by apply find_of_a_separator_is_its_own_index).
  assert (Hvat : vs' !! i = Some value).
  { subst vs'. apply list_lookup_middle. rewrite length_take. lia. }
  assert (Hdk : delete i ks' = keys nd).
  { subst ks'. rewrite <- (take_drop i (keys nd)) at 3.
    replace i with (length (take i (keys nd))) at 1
      by (rewrite length_take; lia).
    apply delete_middle. }
  assert (Hdv : delete i vs' = values nd).
  { subst vs'. rewrite <- (take_drop i (values nd)) at 3.
    replace i with (length (take i (values nd))) at 1
      by (rewrite length_take; lia).
    apply delete_middle. }
  unfold Remove. rewrite Hroot. unfold bind.
  rewrite (remove_descends zeroV (tree_less t) (<[l := nd1]> h) key fuel
             fuel r l)
    by (subst nd1; rewrite descend_leaf_update by done; exact Hd).
  rewrite (removeFromLeaf_plain zeroV (tree_less t) (<[l := nd1]> h) l nd1
             key key value fuel i).
  - unfold ret. subst nd1. fields. rewrite Hdk, Hdv, upd_upd_eq.
    replace (set_values (values nd)
               (set_keys (keys nd) (set_values vs' (set_keys ks' nd))))
      with nd by (by destruct nd).
    by rewrite (upd_id h l nd).
  - by eapply lookup_upd_eq.
  - exact Hf'.
  - exact Hat.
  - exact Hvat.
  - destruct Hmin as [Hp|Hm]; [by left|right].
    subst nd1. unfold minKeys, degree in *. fields. unfold len in *.
    rewrite Hlen'. lia.
Qed.
End round_trip.

Example two_level_heap_is_reached :
  run 0 8 (ins [1; 2; 3; 4; 5]) (empty 4 Z.ltb)
  = Ok (two_level_tree, two_level_heap).
Proof. vm_compute. reflexivity. Qed.

Lemma increasing_3_4_5 : increasing Z.ltb [3; 4; 5].
Proof.
  intros [|[|[|a]]] [|[|[|b]]] x y Hab Ha Hb;
    cbn in Ha, Hb; simplify_eq; try lia; reflexivity.
Qed.

Lemma Remove_of_a_missing_key_changes_nothing_witness :
  Remove 0 2 two_level_tree 6 two_level_heap
  = Ok ((0, false, two_level_tree), two_level_heap).
Proof.
  apply (Remove_of_a_missing_key_changes_nothing 0 two_level_tree
           two_level_heap 2%nat 1%nat
           (mkNode [3; 4; 5] [] (Some 2%nat) 4 None (Some 0%nat) true
              [30; 40; 50]) 6 2%nat 3%nat); reflexivity.
Defined.

Lemma Insert_with_room_changes_one_leaf_witness :
  Insert 2 two_level_tree 6 60 two_level_heap
  = Ok ((false, two_level_tree),
        <[1%nat := mkNode [3; 4; 5; 6] [] (Some 2%nat) 4 None (Some 0%nat)
                     true [30; 40; 50; 60]]> two_level_heap).
Proof.
  apply (Insert_with_room_changes_one_leaf two_level_tree two_level_heap
           2%nat 1%nat
           (mkNode [3; 4; 5] [] (Some 2%nat) 4 None (Some 0%nat) true
              [30; 40; 50]) 6 60 2%nat 3%nat); reflexivity.
Defined.

Lemma Remove_without_underflow_changes_one_leaf_witness :
  Remove 0 2 two_level_tree 4 two_level_heap
  = Ok ((40, true, two_level_tree),
        <[1%nat := mkNode [3; 5] [] (Some 2%nat) 4 None (Some 0%nat)
                     true [30; 50]]> two_level_heap).
Proof.
  apply (Remove_without_underflow_changes_one_leaf 0 two_level_tree
           two_level_heap 2%nat 1%nat
           (mkNode [3; 4; 5] [] (Some 2%nat) 4 None (Some 0%nat) true
              [30; 40; 50]) 4 4 40 2%nat 1%nat); try reflexivity.
  right. vm_compute. discriminate.
Defined.

Lemma Insert_then_Remove_restores_the_heap_witness :
  ∃ h1, Insert 2 two_level_tree 6 60 two_level_heap
        = Ok ((false, two_level_tree), h1) ∧
        Remove 0 2 two_level_tree 6 h1
        = Ok ((60, true, two_level_tree), two_level_heap).
Proof.
  apply (Insert_then_Remove_restores_the_heap 0 two_level_tree
           two_level_heap 2%nat 1%nat
           (mkNode [3; 4; 5] [] (Some 2%nat) 4 None (Some 0%nat) true
              [30; 40; 50]) 6 60 2%nat 3%nat); try reflexivity.
  - exact Z.ltb_irrefl.
  - exact Zltb_trans.
  - exact increasing_3_4_5.
  - right. vm_compute. discriminate.
Defined.

(** ** Allocation on a symbolic heap *)

Section allocation.
Context {kT vT : Type}.
Implicit Types (h : @heap kT vT) (n : @node kT vT).

Lemma bind_new {B} h n (k : nat -> M B) :
  bind (new n) k h = k (length h) (h ++ [n]).
Proof. reflexivity. Qed.

Lemma lookup_alloc_eq h n : (h ++ [n]) !! length h = Some n.
Proof. by apply list_lookup_middle. Qed.

Lemma lookup_alloc_old h a n x : h !! a = Some n → (h ++ [x]) !! a = Some n.
Proof. apply lookup_app_l_Some. Qed.

Lemma upd_alloc_old h a n x y :
  h !! a = Some n →
  <[a := y]> (h ++ [x] : @heap kT vT) = <[a := y]> h ++ [x].
Proof.
  intros H. apply insert_app_l. by eapply lookup_lt_Some.
Qed.

Lemma upd_alloc_new h x y (a : nat) :
  a = length h → <[a := y]> (h ++ [x] : @heap kT vT) = h ++ [y].
Proof.
  intros ->. unfold heap. rewrite insert_app_r_alt by lia.
  by rewrite Nat.sub_diag.
Qed.

Lemma length_upd h a x : length (<[a := x]> h) = length h.
Proof. apply length_insert. Qed.

Lemma old_is_not_new h a n : h !! a = Some n → a ≠ length h.
Proof. intros H%lookup_lt_Some. lia. Qed.
End allocation.

(** Looking a node up in a heap written as updates and allocations. *)
Ltac solve_lookup_alloc :=
  lazymatch goal with
  | |- <[?a := _]> _ !! ?a = Some _ =>
      eapply lookup_upd_eq; solve_lookup_alloc
  | |- <[?a := _]> _ !! ?b = Some _ =>
      rewrite (lookup_upd_ne _ a b)
        by (congruence
            || (rewrite ?length_upd, ?length_app; cbn [length]; lia));
      solve_lookup_alloc
  | |- (?h ++ [_]) !! length ?h = Some _ => apply lookup_alloc_eq
  | |- (_ ++ [_]) !! _ = Some _ =>
      apply lookup_alloc_old; solve_lookup_alloc
  | |- _ => eassumption
  end.

(** One statement of the program, allocations included. *)
Ltac step_alloc :=
  lazymatch goal with
  | |- context [bind (bind ?m ?f) ?g ?h] => rewrite (bind_bind h m f g)
  | |- context [bind (rd (Some ?a) ?f) ?k ?h] =>
      erewrite (bind_rd h a _ f k) by solve_lookup_alloc
  | |- context [bind (wr (Some ?a) ?f) ?k ?h] =>
      erewrite (bind_wr h a _ f k) by solve_lookup_alloc
  | |- context [bind (new ?n) ?k ?h] => rewrite (bind_new h n k)
  | |- context [bind (ret ?a) ?k ?h] => rewrite (bind_ret h a k)
  | |- context [bind (lift (Ok ?a)) ?k ?h] => rewrite (bind_lift_Ok h a k)
  end; cbn beta iota.

(** ** Faults and refusals of the rebalancing steps *)

Section rebalancing.
Context {kT vT : Type}.
Implicit Types (h : @heap kT vT) (nd pd xd ad : @node kT vT).

Lemma pop_snoc {T : Type} (s : list T) (x : T) :
  items.pop (s ++ [x]) = Ok (x, s).
Proof.
  unfold items.pop. rewrite length_app, Nat.add_1_r.
  rewrite list_lookup_middle by done. by rewrite take_app_length.
Qed.

(** X18: The merge check at a node with neither a [prev] nor a [next] link,
    as the root of a tree is, stops on a nil dereference: it reads the
    keys of the absent second node before anything else. *)
Theorem merge_check_without_siblings_faults less h (n : nat) nd
    (key : kT) (fuel : nat) :
  h !! n = Some nd → prev nd = None → next nd = None →
  mayMergeWithNeighbor (S fuel) less n key h = Err NilDeref.
Proof.
  intros Hn Hp Hx. cbn [mayMergeWithNeighbor]. step. rewrite Hp.
  erewrite (bind_Ok h h (Some n, None)).
  2:{ step. by rewrite Hx. }
  cbn beta iota. step. reflexivity.
Qed.

(** X16: When neither neighbour of a leaf holds more than its minimum, the
    steal answers [false] and the heap is untouched. *)
Theorem steal_refused_changes_nothing less h (n : nat) nd (key : kT) :
  h !! n = Some nd → isLeaf nd = true →
  match prev nd with
  | None => True
  | Some p => ∃ pd, h !! p = Some pd ∧ len (keys pd) ≤ minKeys pd
  end →
  match next nd with
  | None => True
  | Some x => ∃ xd, h !! x = Some xd ∧ len (keys xd) ≤ minKeys xd
  end →
  mayStealFromNeighborLeaf less n key h = Ok (false, h).
Proof.
  intros Hn Hleaf Hprev Hnext.
  unfold mayStealFromNeighborLeaf. step. rewrite Hleaf. cbn [negb].
  step. step.
  erewrite (bind_Ok h h false).
  2:{ destruct (prev nd) as [p|]; [|reflexivity].
      destruct Hprev as (pd & Hp & Hle). step. step. unfold ret.
      by rewrite bool_decide_eq_false_2 by lia. }
  cbn beta iota.
  erewrite (bind_Ok h h false); [reflexivity|].
  destruct (next nd) as [x|]; [|reflexivity].
  destruct Hnext as (xd & Hx & Hle). step. step. unfold ret.
  by rewrite bool_decide_eq_false_2 by lia.
Qed.

(** A steal on a node that is not a leaf is the explicit panic of the
    code, before any read of a neighbour. *)
Lemma steal_on_internal_node_panics less h (n : nat) nd (key : kT) :
  h !! n = Some nd → isLeaf nd = false →
  mayStealFromNeighborLeaf less n key h = Err UnexpectedSteal.
Proof.
  intros Hn Hleaf. unfold mayStealFromNeighborLeaf. step.
  by rewrite Hleaf.
Qed.

(** X17: Stealing from the previous leaf [p]: its last pair moves to the front
    of the leaf [n], and the parent key at the index [find] answers for
    the removed key is overwritten with the stolen key.  When that index
    is one past the parent's keys, which is where [find] lands for the
    last child, the step faults instead. *)
Theorem steal_from_prev_writes_at_the_found_index less h (n p a : nat)
    nd pd ad (key : kT) (i : nat) (b : bool) (k0 : kT) (ks : list kT)
    (v0 : vT) (vs : list vT) :
  h !! n = Some nd → isLeaf nd = true →
  prev nd = Some p → h !! p = Some pd →
  minKeys pd < len (keys pd) →
  keys pd = ks ++ [k0] → values pd = vs ++ [v0] →
  parent nd = Some a → h !! a = Some ad →
  p ≠ n → a ≠ n → a ≠ p →
  items.find key less (keys ad) = (i, b) →
  mayStealFromNeighborLeaf less n key h
  = if decide (i < length (keys ad))%nat
    then Ok (true,
             <[a := set_keys (<[i := k0]> (keys ad)) ad]>
               (<[n := set_values (v0 :: values nd)
                         (set_keys (k0 :: keys nd) nd)]>
                  (<[p := set_values vs (set_keys ks pd)]> h)))
    else Err IndexOutOfRange.
Proof.
  intros Hn Hleaf Hprev Hp Hmin Hks Hvs Hpar Ha Hpn Han Hap Hf.
  unfold mayStealFromNeighborLeaf. step. rewrite Hleaf. cbn [negb].
  step. step. rewrite Hprev. repeat (step; fields).
  rewrite bool_decide_eq_true_2 by done.
  repeat (step; fields). rewrite Hks, pop_snoc.
  repeat (step; fields). rewrite Hvs, pop_snoc.
  repeat (step; fields). rewrite insertAt_0.
  repeat (step; fields). rewrite insertAt_0.
  repeat (step; fields). rewrite Hpar. repeat (step; fields).
  rewrite Hf. repeat (step; fields).
  case_decide as Hi.
  - destruct (lookup_lt_is_Some_2 (keys ad) i Hi) as [ki Hki].
    rewrite (removeAt_lookup i ki) by done.
    repeat (step; fields).
    rewrite insertAt_le
      by (rewrite length_delete by eauto; lia).
    repeat (step; fields).
    rewrite remove_then_insert by done.
    unfold ret. rewrite !upd_upd_eq. reflexivity.
  - unfold items.removeAt. rewrite lookup_ge_None_2 by lia. reflexivity.
Qed.
End rebalancing.

(** ** The first split: a full root leaf *)

Section root_split.
Context {kT vT : Type}.
Implicit Types (h : @heap kT vT) (nd : @node kT vT) (t : @BPlusTree kT).

Lemma from_le {T : Type} (i : nat) (s : list T) :
  (i ≤ length s)%nat → items.from i s = Ok (drop i s).
Proof. intros H. unfold items.from. by rewrite decide_True. Qed.

Lemma truncate_le {T : Type} (i : nat) (s : list T) :
  (i ≤ length s)%nat → items.truncate i s = Ok (take i s).
Proof. intros H. unfold items.truncate. by rewrite decide_True. Qed.


End root_split.


Lemma merge_check_without_siblings_faults_witness :
  mayMergeWithNeighbor 1 Z.ltb 2 1 two_level_heap = Err NilDeref.
Proof.
  apply (merge_check_without_siblings_faults Z.ltb two_level_heap 2%nat
           (mkNode [3] [0%nat; 1%nat] None 4 None None false []) 1 0%nat);
    reflexivity.
Defined.

Lemma steal_refused_changes_nothing_witness :
  mayStealFromNeighborLeaf Z.ltb 0 1
    (<[0%nat := mkNode [2] [] (Some 2%nat) 4 (Some 1%nat) None true [20]]>
       steal_heap)
  = Ok (false,
        <[0%nat := mkNode [2] [] (Some 2%nat) 4 (Some 1%nat) None true
                     [20]]> steal_heap).
Proof.
  apply (steal_refused_changes_nothing Z.ltb _ 0%nat
           (mkNode [2] [] (Some 2%nat) 4 (Some 1%nat) None true [20]) 1);
    try reflexivity.
  eexists. split; [reflexivity|]. vm_compute. discriminate.
Defined.

Lemma steal_from_prev_writes_at_the_found_index_witness :
  mayStealFromNeighborLeaf Z.ltb 1 5 steal_prev_heap
  = Ok (true,
        <[2%nat := mkNode [4; 3] [0%nat; 1%nat; 3%nat] None 4 None None
                     false []]>
          (<[1%nat := mkNode [3; 4] [] (Some 2%nat) 4 (Some 3%nat)
                        (Some 0%nat) true [30; 40]]>
             (<[0%nat := mkNode [1; 2] [] (Some 2%nat) 4 (Some 1%nat) None
                           true [10; 20]]> steal_prev_heap))).
Proof.
  apply (steal_from_prev_writes_at_the_found_index Z.ltb steal_prev_heap
           1%nat 0%nat 2%nat
           (mkNode [4] [] (Some 2%nat) 4 (Some 3%nat) (Some 0%nat) true
              [40])
           (mkNode [1; 2; 3] [] (Some 2%nat) 4 (Some 1%nat) None true
              [10; 20; 30])
           (mkNode [4; 6] [0%nat; 1%nat; 3%nat] None 4 None None false [])
           5 1%nat false 3 [1; 2] 30 [10; 20]);
    try reflexivity; try discriminate.
Defined.

Example steal_prev_heap_is_reached :
  ∃ s s', run 0 8 (ins [2; 3; 4; 5; 6; 7; 8; 1]) (empty 4 Z.ltb) = Ok s ∧
          exec 0 8 (OpRemove 5) s = Ok s' ∧
          mayStealFromNeighborLeaf Z.ltb 1 5 steal_prev_heap
          = Ok (true, snd s').
Proof.
  do 2 eexists. split; [vm_compute; reflexivity|].
  split; vm_compute; reflexivity.
Qed.

(** ** The first insertion *)

Section first_insertion.
Context {kT vT : Type}.
Variable zeroV : vT.
Implicit Types (h : @heap kT vT) (nd : @node kT vT) (t : @BPlusTree kT).

(** X12: On a handle with no root, [Insert] allocates one leaf holding the
    pair, with the handle's order, makes it the root and answers
    [false]; [Remove] of that key then returns the value and found and
    leaves the root in place, keyless, so that the iteration is empty. *)
Theorem first_Insert_then_Remove t h (k : kT) (v : vT) (fuel fuel' : nat) :
  tree_root t = None →
  tree_less t k k = false →
  let t1 := mkTree (tree_order t) (tree_less t) (Some (length h)) in
  let leaf ks vs := mkNode ks [] None (tree_order t) None None true vs in
  Insert fuel t k v h = Ok ((false, t1), h ++ [leaf [k] [v]]) ∧
  Remove zeroV (S fuel') t1 k (h ++ [leaf [k] [v]])
  = Ok ((v, true, t1), h ++ [leaf [] []]) ∧
  Iterate (S fuel') (t1, h ++ [leaf [] []]) = Some [].
Proof.
  intros Hroot Hirr t1 leaf. split; [|split].
  - unfold Insert. rewrite Hroot. repeat (step_alloc; fields).
    unfold ret. rewrite upd_upd_eq, upd_alloc_new by done.
    reflexivity.
  - unfold Remove. subst t1. cbn [tree_root tree_less]. unfold bind.
    rewrite (remove_solitary zeroV (tree_less t) (h ++ [leaf [k] [v]])
               (length h) (leaf [k] [v]) k v (S fuel') fuel');
      [|apply lookup_alloc_eq|done..].
    cbn beta iota. unfold ret. rewrite upd_alloc_new by done. reflexivity.
  - subst t1 leaf. cbn beta.
    set (e := mkNode [] [] None (tree_order t) None None true []).
    assert (Hl : (h ++ [e] : @heap kT vT) !! length h = Some e)
      by apply lookup_alloc_eq.
    unfold Iterate. cbn [fst snd tree_root leftmost walk].
    rewrite Hl. cbn [mbind option_bind isLeaf e].
    rewrite Hl. cbn [mbind option_bind next e].
    assert (Hw : walk next fuel' (h ++ [e] : @heap kT vT) None = Some [])
      by (by destruct fuel').
    rewrite Hw. cbn [mbind option_bind].
    unfold pairs_of. cbn [map concat]. by rewrite Hl.
Qed.
End first_insertion.

Lemma first_Insert_then_Remove_witness :
  Insert 1 (mkTree 4 Z.ltb None) 5 50 []
  = Ok ((false, mkTree 4 Z.ltb (Some 0%nat)),
        [mkNode [5] [] None 4 None None true [50]]) ∧
  Remove 0 1 (mkTree 4 Z.ltb (Some 0%nat)) 5
    [mkNode [5] [] None 4 None None true [50]]
  = Ok ((50, true, mkTree 4 Z.ltb (Some 0%nat)),
        [mkNode [] [] None 4 None None true []]) ∧
  @Iterate Z Z 1 (mkTree 4 Z.ltb (Some 0%nat),
                  [mkNode [] [] None 4 None None true []]) = Some [].
Proof.
  apply (first_Insert_then_Remove 0 (mkTree 4 Z.ltb None) [] 5 50 1%nat
           0%nat); reflexivity.
Defined.

(** ** The split of an internal node *)

Section internal_split.
Context {kT vT : Type}.
Implicit Types (h : @heap kT vT) (nd : @node kT vT).

(** X15: [split] of an internal node with no [next] at the key index [i]: the
    key at [i] is returned and stays in neither half; the node keeps the
    keys before it and the children up to [i]; a new node, allocated at
    the end of the heap and linked after it, takes the keys and children
    behind.  No other node is written: every child handed to the new
    node still has the [parent] link it had, which names the old node. *)
Theorem split_of_an_internal_node h (n : nat) nd (i : nat) (k : kT) :
  h !! n = Some nd → isLeaf nd = false →
  values nd = [] → next nd = None →
  keys nd !! i = Some k →
  length (children nd) = S (length (keys nd)) →
  let kept := set_next (Some (length h))
                (set_children (take (S i) (children nd))
                   (set_keys (take i (keys nd)) nd)) in
  let moved := mkNode (drop (S i) (keys nd)) (drop (S i) (children nd))
                 (parent nd) (order nd) None (Some n) false [] in
  split n (Z.of_nat i) h = Ok ((k, length h), <[n := kept]> h ++ [moved]) ∧
  take i (keys nd) ++ k :: keys moved = keys nd ∧
  children kept ++ children moved = children nd ∧
  ∀ c cd, c ≠ n → h !! c = Some cd →
          (<[n := kept]> h ++ [moved]) !! c = Some cd.
Proof.
  intros Hn Hleaf Hvs Hnext Hk Hlen kept moved.
  assert (Hi : (i < length (keys nd))%nat) by (by eapply lookup_lt_Some).
  assert (Hnew : n ≠ length h) by (by eapply old_is_not_new).
  split; [|split; [|split]].
  - unfold split. repeat (step_alloc; fields).
    rewrite (at_lookup i k) by done. repeat (step_alloc; fields).
    rewrite Nat2Z.id, Hleaf.
    rewrite from_le by lia. repeat (step_alloc; fields).
    rewrite truncate_le by lia. repeat (step_alloc; fields).
    rewrite decide_True by (unfold len; lia).
    repeat (step_alloc; fields).
    rewrite from_le by lia. repeat (step_alloc; fields).
    rewrite truncate_le by lia. repeat (step_alloc; fields).
    rewrite Hvs. rewrite decide_False by (unfold len; cbn; lia).
    repeat (step_alloc; fields). rewrite Hnext.
    repeat (step_alloc; fields).
    unfold ret. rewrite Hnext, Hleaf.
    repeat (rewrite upd_upd_eq
            || rewrite (upd_upd_ne _ (length h) n) by done).
    rewrite upd_alloc_new by done.
    erewrite (upd_alloc_old _ n) by solve_lookup_alloc.
    unfold zeroNode. fields. cbn [app]. rewrite Nat.add_1_r.
    subst kept moved. reflexivity.
  - subst moved. fields.
    rewrite <- (drop_S (keys nd) k i) by done. apply take_drop.
  - subst kept moved. fields. apply take_drop.
  - intros c cd Hc Hcd. apply lookup_alloc_old.
    by rewrite lookup_upd_ne.
Qed.
End internal_split.

(** The split of the overfull root of [overfull_root_heap] at its minimum
    1: the key 5 goes up, the new node 6 takes the keys [7, 9] and the
    children 3, 4, 5, and the leaf 3 still names node 2 as its parent. *)
Lemma split_of_an_internal_node_witness :
  split 2 1 overfull_root_heap
  = Ok ((5, 6%nat),
        <[2%nat := mkNode [3] [0%nat; 1%nat] None 4 (Some 6%nat) None false
                     []]> overfull_root_heap
        ++ [mkNode [7; 9] [3%nat; 4%nat; 5%nat] None 4 None (Some 2%nat)
              false []]) ∧
  (<[2%nat := mkNode [3] [0%nat; 1%nat] None 4 (Some 6%nat) None false
                []]> overfull_root_heap
   ++ [mkNode [7; 9] [3%nat; 4%nat; 5%nat] None 4 None (Some 2%nat)
         false []]) !! 3%nat
  = Some (mkNode [5; 6] [] (Some 2%nat) 4 (Some 4%nat) (Some 1%nat) true
            [50; 60]).
Proof.
  destruct (split_of_an_internal_node overfull_root_heap 2%nat
              (mkNode [3; 5; 7; 9] [0%nat; 1%nat; 3%nat; 4%nat; 5%nat] None
                 4 None None false []) 1%nat 5
              eq_refl eq_refl eq_refl eq_refl eq_refl eq_refl)
    as (Hsplit & _ & _ & Hframe).
  split; [exact Hsplit|].
  apply (Hframe 3%nat); [discriminate|reflexivity].
Defined.

Example overfull_root_heap_is_reached :
  ∃ s s' h',
    run 0 8 (ins [1; 2; 3; 4; 5; 6; 7; 8; 9; 10]) (empty 4 Z.ltb) = Ok s ∧
    exec 0 8 (OpInsert 11 110) s = Ok s' ∧
    mayGrowUp 1 Z.ltb 2 overfull_root_heap = Ok ((Some 7%nat, true), h') ∧
    snd s' = h'.
Proof.
  do 3 eexists. split; [vm_compute; reflexivity|].
  split; [vm_compute; reflexivity|].
  split; vm_compute; reflexivity.
Qed.

(** ** What the result of [Insert] reports *)

Section insert_flag.
Context {kT vT : Type}.
Implicit Types (h : @heap kT vT) (t : @BPlusTree kT).

Lemma bind_inv {A B} (m : @M kT vT A) (k : A -> M B) h r :
  bind m k h = Ok r → ∃ a h1, m h = Ok (a, h1) ∧ k a h1 = Ok r.
Proof.
  unfold bind. destruct (m h) as [[a h1]|e]; [|discriminate]. eauto.
Qed.

Lemma rd_inv {A} (p : ptr) (f : @node kT vT -> A) h a h1 :
  rd p f h = Ok (a, h1) →
  h1 = h ∧ ∃ x, p = Some x ∧ (x < length h)%nat.
Proof.
  unfold rd. destruct p as [x|]; [|discriminate].
  destruct (h !! x) eqn:Hx; [|discriminate]. intros [= <- <-].
  split; [done|]. exists x. split; [done|]. by eapply lookup_lt_Some.
Qed.

Lemma wr_inv (p : ptr) (f : @node kT vT -> node) h a h1 :
  wr p f h = Ok (a, h1) → length h1 = length h.
Proof.
  unfold wr. destruct p as [x|]; [|discriminate].
  destruct (h !! x); [|discriminate]. intros [= <- <-].
  apply length_upd.
Qed.

Lemma new_inv (n : @node kT vT) h a h1 :
  new n h = Ok (a, h1) → a = length h ∧ length h1 = S (length h).
Proof.
  unfold new. intros [= <- <-]. split; [done|].
  rewrite length_app. cbn. lia.
Qed.

Lemma lift_inv {A} (r : res A) h (a : A) h1 :
  @lift kT vT A r h = Ok (a, h1) → h1 = h.
Proof. unfold lift. destruct r; [|discriminate]. by intros [= <- <-]. Qed.

Lemma ret_inv {A} (x a : A) h h1 :
  @ret kT vT A x h = Ok (a, h1) → a = x ∧ h1 = h.
Proof. unfold ret. by intros [= <- <-]. Qed.
End insert_flag.

(** Taking a successful run apart, statement by statement. *)
Ltac crunch :=
  repeat match goal with
  | H : bind _ _ _ = Ok _ |- _ =>
      let E := fresh "E" in apply bind_inv in H as (? & ? & E & H)
  | H : rd _ _ _ = Ok _ |- _ => apply rd_inv in H as (-> & ? & ? & ?)
  | H : wr _ _ _ = Ok _ |- _ => apply wr_inv in H
  | H : new _ _ = Ok _ |- _ => apply new_inv in H as (-> & ?)
  | H : lift _ _ = Ok _ |- _ => apply lift_inv in H as ->
  | H : ret _ _ = Ok _ |- _ => apply ret_inv in H as (? & ->)
  | H : throw _ _ = Ok _ |- _ => discriminate H
  | H : (if ?c then _ else _) _ = Ok _ |- _ => destruct c
  | H : match ?x with _ => _ end _ = Ok _ |- _ => destruct x
  end.

Section insert_flag_facts.
Context {kT vT : Type}.
Implicit Types (h : @heap kT vT) (t : @BPlusTree kT).

Lemma split_allocates_one (n : nat) (i : Z) h (r : kT * nat) h' :
  split n i h = Ok (r, h') →
  length h' = S (length h) ∧ (n < length h)%nat.
Proof.
  unfold split. intros H. crunch; simplify_eq; split; lia.
Qed.

Lemma mayGrowUp_flag less (fuel : nat) :
  ∀ (n : nat) h p b h',
    mayGrowUp fuel less n h = Ok ((p, b), h') →
    (length h ≤ length h')%nat ∧
    ((p = None ∧ b = false) ∨
     ∃ root, p = Some root ∧ b = true ∧
             (length h ≤ root)%nat ∧ (root < length h')%nat).
Proof.
  induction fuel as [|fuel IH]; intros n h p b h' H; [discriminate|].
  cbn [mayGrowUp] in H. crunch;
    try match goal with
        | E : split _ _ _ = Ok _ |- _ =>
            apply split_allocates_one in E as [? ?]
        end;
    try match goal with
        | E : mayGrowUp _ _ _ _ = Ok _ |- _ => apply IH in E as [? Hshape]
        end;
    simplify_eq; (split; [lia|]).
  all: first
    [ by left
    | destruct Hshape as [?|(root & ? & ? & ? & ?)];
      [by left|right; exists root; repeat split; (done || lia)]
    | right; eexists; repeat split; (done || lia) ].
Qed.

Lemma insert_flag less (up fuel : nat) (key : kT) (value : vT) :
  ∀ (n : nat) h p b h',
    insert up fuel less n key value h = Ok ((p, b), h') →
    (n < length h)%nat ∧ (length h ≤ length h')%nat ∧
    ((p = None ∧ b = false) ∨
     ∃ root, p = Some root ∧ b = true ∧
             (length h ≤ root)%nat ∧ (root < length h')%nat).
Proof.
  induction fuel as [|fuel IH]; intros n h p b h' H; [discriminate|].
  cbn [insert] in H. unfold insertIntoLeaf in H. crunch;
    try match goal with
        | E : mayGrowUp _ _ _ _ = Ok _ |- _ =>
            apply mayGrowUp_flag in E as [? Hshape]
        end;
    try match goal with
        | E : insert _ _ _ _ _ _ _ = Ok _ |- _ =>
            apply IH in E as (? & ? & Hshape)
        end;
    simplify_eq; (split; [lia|]); (split; [lia|]).
  all: first
    [ by left
    | destruct Hshape as [?|(root & ? & ? & ? & ?)];
      [by left|right; exists root; repeat split; (done || lia)] ].
Qed.

(** X14: The result of [Insert] reports a change of root, not whether the key
    was new: it is [true] exactly when the handle had a root and now holds
    a node allocated by this call, at an address the heap did not have
    before; when it is [false] the handle either had no root and now holds
    the one new leaf, or it is unchanged. *)
Theorem Insert_answers_true_exactly_on_a_new_root t h (key : kT)
    (value : vT) (fuel : nat) (b : bool) t' h' :
  Insert fuel t key value h = Ok ((b, t'), h') →
  (length h ≤ length h')%nat ∧
  (b = true →
   ∃ r root, tree_root t = Some r ∧ tree_root t' = Some root ∧
             (r < length h)%nat ∧ (length h ≤ root)%nat ∧
             (root < length h')%nat) ∧
  (b = false →
   (tree_root t = None ∧ tree_root t' = Some (length h)) ∨ t' = t).
Proof.
  unfold Insert. destruct (tree_root t) as [r|] eqn:Hroot; intros H.
  - apply bind_inv in H as ([p f] & h1 & E & H).
    apply insert_flag in E as (? & ? & Hshape).
    destruct Hshape as [[-> ->]|(root & -> & -> & ? & ?)];
      apply ret_inv in H as (Heq & ->); injection Heq as -> ->.
    + split; [done|]. split; [done|]. intros _. by right.
    + split; [done|]. split; [|done]. intros _.
      exists r, root. by repeat split.
  - crunch. simplify_eq. split; [lia|]. split; [done|].
    intros _. by left.
Qed.
End insert_flag_facts.

Lemma Insert_answers_true_exactly_on_a_new_root_witness :
  ∃ r root, tree_root full_root_tree = Some r ∧
            tree_root two_level_tree = Some root ∧
            (r < length full_root_heap)%nat ∧
            (length full_root_heap ≤ root)%nat ∧
            (root < length two_level_heap)%nat.
Proof.
  apply (proj1 (proj2 (Insert_answers_true_exactly_on_a_new_root
                         full_root_tree full_root_heap 5 50 1%nat true
                         two_level_tree two_level_heap eq_refl))).
  reflexivity.
Defined.

(** ** What a not-found answer of [Remove] guarantees *)

Section remove_flag.
Context {kT vT : Type}.
Variable zeroV : vT.
Implicit Types (h : @heap kT vT) (t : @BPlusTree kT).

Lemma remove_not_found less (up fuel : nat) (key : kT) :
  ∀ (n : nat) h p v h',
    remove zeroV up fuel less n key h = Ok ((p, v, false), h') →
    h' = h ∧ p = None ∧ v = zeroV.
Proof.
  induction fuel as [|fuel IH]; intros n h p v h' H; [discriminate|].
  cbn [remove] in H. unfold removeFromLeaf in H. crunch;
    try match goal with
        | E : remove _ _ _ _ _ _ _ = Ok _ |- _ => by apply IH in E
        end;
    by simplify_eq.
Qed.

(** X8: Whenever [Remove] returns not-found, on any heap and any handle, it
    has changed nothing: the heap and the handle are the ones it was
    given and the value returned is the zero value.  Every path of
    [remove] that writes to a node answers found. *)
Theorem Remove_answering_not_found_changed_nothing t h (key : kT)
    (fuel : nat) (v : vT) t' h' :
  Remove zeroV fuel t key h = Ok ((v, false, t'), h') →
  h' = h ∧ t' = t ∧ v = zeroV.
Proof.
  unfold Remove. destruct (tree_root t) as [r|]; intros H.
  - apply bind_inv in H as ([[p out] f] & h1 & E & H).
    destruct p as [s|].
    + crunch; simplify_eq;
        apply remove_not_found in E as (? & ? & ?); simplify_eq.
    + apply ret_inv in H as (Heq & ->). simplify_eq.
      by apply remove_not_found in E as (-> & _ & ->).
  - apply ret_inv in H as (Heq & ->). by simplify_eq.
Qed.
End remove_flag.

Lemma Remove_answering_not_found_changed_nothing_witness :
  two_level_heap = two_level_heap ∧ two_level_tree = two_level_tree ∧
  0 = 0.
Proof.
  apply (Remove_answering_not_found_changed_nothing 0 two_level_tree
           two_level_heap 3 2%nat 0 two_level_tree two_level_heap).
  reflexivity.
Defined.

(** ** The fit check of the merge *)

Section capacity.
Context {kT vT : Type}.
Implicit Types (h : @heap kT vT) (nd fd sd : @node kT vT).

(** X19: The merge check never refuses where [removeFromLeaf] calls it.
    There the leaf [n] is below its minimum and the steal has been
    refused, so neither of the two leaves that [mayMergeWithNeighbor]
    picks holds more than its minimum; for two leaves of one order that
    float64 holds exactly, the two key sequences then fit in [maxKeys],
    the fit check lets them pass, and a call that returns answers [true]:
    [false] is the answer of the refusal alone. *)
Theorem merge_of_an_underfull_leaf_is_not_refused less h
    (n first second : nat) nd fd sd (key : kT) (fuel : nat)
    (r : ptr * bool) h' :
  h !! n = Some nd →
  chain_pair n nd = Some (first, second) →
  h !! first = Some fd → h !! second = Some sd →
  isLeaf fd = true → isLeaf sd = true →
  order sd = order fd →
  1 ≤ order fd → order fd < 2 ^ 53 →
  len (keys nd) < minKeys nd →
  len (keys fd) ≤ minKeys fd → len (keys sd) ≤ minKeys sd →
  mayMergeWithNeighbor fuel less n key h = Ok (r, h') →
  len (keys fd) + len (keys sd) ≤ maxKeys fd ∧ snd r = true.
Proof.
  intros Hn Hpair Hf Hs Hlf Hls Hord Hlo Hhi Hnd Hfd Hsd H.
  assert (Hn' : nd = fd ∨ nd = sd).
  { unfold chain_pair in Hpair. destruct (prev nd); [|destruct (next nd)];
      simplify_eq; [right|left]; congruence. }
  assert (Hfit : len (keys fd) + len (keys sd) ≤ maxKeys fd).
  { assert (Hdf : minKeys fd = (order fd + 1) `div` 2).
    { unfold minKeys. rewrite Hlf. cbn [negb]. apply degree_small. lia. }
    assert (Hds : minKeys sd = (order fd + 1) `div` 2).
    { unfold minKeys. rewrite Hls. cbn [negb].
      rewrite degree_small by lia. by rewrite Hord. }
    assert (Hmx : maxKeys fd = order fd)
      by (unfold maxKeys; by rewrite Hlf).
    pose proof (Z.div_mod (order fd + 1) 2 ltac:(lia)).
    pose proof (Z.mod_pos_bound (order fd + 1) 2 ltac:(lia)).
    destruct Hn' as [->| ->]; lia. }
  split; [done|].
  destruct fuel as [|fuel]; [discriminate|].
  revert H. cbn [mayMergeWithNeighbor]. step.
  erewrite (bind_Ok h h (Some first, Some second)).
  2:{ unfold chain_pair in Hpair. destruct (prev nd) as [p|] eqn:Hp.
      - by simplify_eq.
      - step. destruct (next nd); by simplify_eq. }
  cbn beta iota. repeat (step; fields).
  rewrite decide_False by lia.
  intros H. assert (∃ x, r = (x, true)) as [x ->]; [|done].
  crunch; simplify_eq; eauto.
Qed.
End capacity.

(** The merge check at the leaf 1 of [small_merge_heap]: the leaf has one
    key, its previous leaf two, the minimum of a leaf of order 3; the
    two fit, the previous leaf absorbs the leaf and the answer is
    [true]. *)
Lemma merge_of_an_underfull_leaf_is_not_refused_witness :
  len [1; 2] + len [3] ≤ 3 ∧ snd (Some 0%nat, true) = true.
Proof.
  apply (merge_of_an_underfull_leaf_is_not_refused Z.ltb small_merge_heap
           1%nat 0%nat 1%nat
           (leaf3 [3] (Some 2%nat) None (Some 0%nat) [30])
           (leaf3 [1; 2] (Some 2%nat) (Some 1%nat) None [10; 20])
           (leaf3 [3] (Some 2%nat) None (Some 0%nat) [30])
           4 1%nat (Some 0%nat, true)
           [leaf3 [1; 2; 3] None None None [10; 20; 30];
            leaf3 [3] (Some 2%nat) None (Some 0%nat) [30];
            inner3 [] [0%nat] None None None]);
    try reflexivity; vm_compute; discriminate.
Defined.

Example small_merge_heap_is_reached :
  ∃ s s' nd,
    run 0 8 (ins [1; 2; 3; 4]) (empty 3 Z.ltb) = Ok s ∧
    snd s !! 1%nat = Some nd ∧
    <[1%nat := set_values [30] (set_keys [3] nd)]> (snd s)
    = small_merge_heap ∧
    exec 0 8 (OpRemove 4) s = Ok s' ∧
    mayMergeWithNeighbor 1 Z.ltb 1 4 small_merge_heap
    = Ok ((Some 0%nat, true), snd s').
Proof.
  do 3 eexists. split; [vm_compute; reflexivity|].
  split; [vm_compute; reflexivity|].
  repeat split; vm_compute; reflexivity.
Qed.
